(** * KubernetesDrawer: the object-rendering pipeline of the Kubernetes plugin

    A shallow embedding of
    [plugins/kubernetes/src/components/KubernetesDrawer/KubernetesDrawer.tsx]:

    - [replaceNullsWithUndefined], the JSON round trip that prepares an object
      for the structured table;
    - [tryFormatClusterLink], the boundary around [formatClusterLink];
    - the YAML view, [jsYaml.dump] driven by the managed-fields replacer;
    - the two pieces of component state ([isYaml], [managedFields]) and the
      titles of the drawer and of its button;
    - the warning panel and the dashboard button of the content, and the
      handlers that open and close the drawer.

    JavaScript values are a tagged tree: [undefined], [null], booleans,
    numbers, strings, arrays, and plain objects as the list of their
    properties in creation order. The built-ins the component calls
    ([String], [JSON.stringify], [JSON.parse], [Object.keys]) follow
    ECMA-262, and [jsYaml.dump] follows the replacer protocol of js-yaml 4.
    Three things are kept abstract: the finite numbers and their decimal
    form, the layout of a YAML document as text, and [formatClusterLink],
    which lives in another module. A JSON text stands as its syntax tree.

    The file has the definitions first, then the facts about them, then
    worked instances on concrete objects. *)

From Stdlib Require Import String Ascii List Bool Arith NArith ZArith.
From Stdlib Require Import DecimalString Lia Permutation Sorted.
Import ListNotations.
Open Scope string_scope.
Open Scope list_scope.

Set Implicit Arguments.
Set Warnings "-register-all,-notation-for-abbreviation".

(** ** Completions: a call either returns or throws *)

Inductive completion (E A : Type) : Type :=
| Normal (a : A)
| Throw (e : E).

Arguments Normal {E A} a.
Arguments Throw {E A} e.

Definition bind {E A B} (c : completion E A) (k : A -> completion E B)
  : completion E B :=
  match c with
  | Normal a => k a
  | Throw e => Throw e
  end.

Notation "x <- c ;; k" := (bind c (fun x => k))
  (at level 61, c at next level, right associativity).

(** [try { body } catch (err) { handler }] *)
Definition try_catch {E A} (body : completion E A) (handler : E -> completion E A)
  : completion E A :=
  match body with
  | Normal a => Normal a
  | Throw err => handler err
  end.

(** Runs the computations of a list from left to right: the first one that
    throws ends the run. *)
Fixpoint sequence {E A} (l : list (completion E A)) : completion E (list A) :=
  match l with
  | [] => Normal []
  | c :: l' => a <- c ;; r <- sequence l' ;; Normal (a :: r)
  end.

(** The standard constructors of errors. A built-in that fails throws an
    error of one of them; its message is up to the engine and is left out. *)
Inductive native_error : Type :=
| PlainError
| EvalError
| RangeError
| ReferenceError
| SyntaxError
| TypeError
| URIError.

(** The [name] that the prototype of each constructor gives its errors. *)
Definition native_error_name (constructor : native_error) : string :=
  match constructor with
  | PlainError => "Error"
  | EvalError => "EvalError"
  | RangeError => "RangeError"
  | ReferenceError => "ReferenceError"
  | SyntaxError => "SyntaxError"
  | TypeError => "TypeError"
  | URIError => "URIError"
  end.

(** [s] occurs in [text]. *)
Definition contains (s text : string) : Prop :=
  exists before after, text = (before ++ s ++ after)%string.

(** ** Property keys *)

(** [ToString] of a non-negative integer, as used for array positions. *)
Definition index_to_string (i : N) : string :=
  NilZero.string_of_uint (N.to_uint i).

(** A key is an array index when it is the canonical decimal form of an
    integer below 2^32 - 1 (ECMA-262, 6.1.7). *)
Definition array_index (key : string) : option N :=
  match NilZero.uint_of_string key with
  | Some d =>
      let i := N.of_uint d in
      if (index_to_string i =? key) && (i <? 4294967295)%N then Some i else None
  | None => None
  end.

Section Properties.
Variable A : Type.

(** The properties of an object, in the order they were created. *)
Definition properties := list (string * A).

Definition indexed (props : properties) : list (N * (string * A)) :=
  flat_map (fun p => match array_index (fst p) with
                     | Some i => [(i, p)]
                     | None => []
                     end) props.

Definition named (props : properties) : properties :=
  filter (fun p => match array_index (fst p) with
                   | Some _ => false
                   | None => true
                   end) props.

Fixpoint insert_indexed (e : N * (string * A)) (l : list (N * (string * A)))
  : list (N * (string * A)) :=
  match l with
  | [] => [e]
  | e' :: l' =>
      if (fst e <=? fst e')%N then e :: l else e' :: insert_indexed e l'
  end.

Definition sort_indexed (l : list (N * (string * A))) : list (N * (string * A)) :=
  fold_right insert_indexed [] l.

(** [EnumerableOwnProperties] / [Object.keys] order (ECMA-262,
    OrdinaryOwnPropertyKeys): array indices in ascending numeric order,
    then the other keys in creation order. *)
Definition EnumerableOwnProperties (props : properties) : properties :=
  map snd (sort_indexed (indexed props)) ++ named props.

(** [object[key]] on own data properties; [None] is a missing property. *)
Fixpoint lookup (key : string) (props : properties) : option A :=
  match props with
  | [] => None
  | (k, a) :: props' => if k =? key then Some a else lookup key props'
  end.

(** [CreateDataProperty]: an existing key keeps its place and takes the new
    value, a new key goes last. *)
Fixpoint CreateDataProperty (key : string) (a : A) (props : properties)
  : properties :=
  match props with
  | [] => [(key, a)]
  | (k, a') :: props' =>
      if k =? key then (k, a) :: props'
      else (k, a') :: CreateDataProperty key a props'
  end.

Definition has_own (key : string) (props : properties) : bool :=
  existsb (fun p => fst p =? key) props.

(** The properties created one after the other on an object. *)
Definition create_all (members : properties) (props : properties) : properties :=
  fold_left (fun props m => CreateDataProperty (fst m) (snd m) props)
            members props.
End Properties.

(** [k1] is enumerated no later than [k2]. *)
Definition key_le (k1 k2 : string) : Prop :=
  match array_index k1, array_index k2 with
  | Some i, Some j => (i <= j)%N
  | Some _, None => True
  | None, Some _ => False
  | None, None => True
  end.

(** ** Values *)

Section Drawer.

(** Finite numbers, and their decimal form [Number::toString]. Floating
    point is kept abstract; -0 and 0 are one number, as for [===]. *)
Variable num : Type.
Variable num_to_string : num -> string.

Inductive number : Type :=
| Finite (n : num)
| NaN
| Infinity (negative : bool).

Inductive value : Type :=
| VUndefined
| VNull
| VBool (b : bool)
| VNumber (n : number)
| VString (s : string)
| VArray (elements : list value)
| VObject (props : list (string * value)).

Definition is_undefined (v : value) : bool :=
  match v with
  | VUndefined => true
  | _ => false
  end.

Definition is_nullish (v : value) : bool :=
  match v with
  | VUndefined | VNull => true
  | _ => false
  end.

Definition number_to_string (n : number) : string :=
  match n with
  | Finite n => num_to_string n
  | NaN => "NaN"
  | Infinity false => "Infinity"
  | Infinity true => "-Infinity"
  end.

(** [String(value)]. An array joins its elements with commas, [null] and
    [undefined] elements counting as empty; a plain object answers
    ["[object Object]"] through [Object.prototype.toString], unless an own
    data property named [toString] hides that method, in which case the
    conversion to a primitive fails with a [TypeError]. *)
Fixpoint ToString (v : value) : completion native_error string :=
  match v with
  | VUndefined => Normal "undefined"
  | VNull => Normal "null"
  | VBool true => Normal "true"
  | VBool false => Normal "false"
  | VNumber n => Normal (number_to_string n)
  | VString s => Normal s
  | VArray elements =>
      parts <- sequence
                 (map (fun element =>
                         if is_nullish element then Normal ""
                         else ToString element) elements) ;;
      Normal (String.concat "," parts)
  | VObject props =>
      if has_own "toString" props then Throw TypeError
      else Normal "[object Object]"
  end.

(** ** JSON.stringify and JSON.parse *)

(** A JSON text, by its syntax tree. [JSON.parse] reads back what
    [JSON.stringify] wrote: quoting and the decimal form of finite numbers
    round-trip, so the text itself is not spelled out. *)
Inductive json : Type :=
| JNull
| JBool (b : bool)
| JNumber (n : num)
| JString (s : string)
| JArray (elements : list json)
| JObject (members : list (string * json)).

(** A replacer function [(key, value) => ...]. Both replacers of the
    component answer either [undefined] or the value they were given. *)
Definition replacer_function : Type :=
  string -> value -> completion native_error value.

(** [SerializeJSONArray]: an element that serialises to [undefined] is
    written as [null]. *)
Fixpoint with_indices {B} (i : N) (l : list (string -> B)) : list B :=
  match l with
  | [] => []
  | f :: l' => f (index_to_string i) :: with_indices (N.succ i) l'
  end.

Definition SerializeJSONArray
    (elements : list (string -> completion native_error (option json)))
  : completion native_error (option json) :=
  parts <- sequence (with_indices 0 elements) ;;
  Normal (Some (JArray (map (fun part => match part with
                                         | Some j => j
                                         | None => JNull
                                         end) parts))).

(** [SerializeJSONObject]: the members are visited in [Object.keys] order
    and one that serialises to [undefined] is left out. *)
Definition SerializeJSONObject
    (members : list (string * completion native_error (option json)))
  : completion native_error (option json) :=
  parts <- sequence (map (fun m => part <- snd m ;; Normal (fst m, part))
                         (EnumerableOwnProperties members)) ;;
  Normal (Some (JObject (flat_map (fun m => match snd m with
                                            | Some j => [(fst m, j)]
                                            | None => []
                                            end) parts))).

(** [SerializeJSONProperty] after the replacer has been called. The node
    that is serialised is the visited one: the replacer's answer only says
    whether it is kept. Non-finite numbers are written as [null]. *)
Fixpoint SerializeJSONValue (replacer : replacer_function) (v : value)
  : completion native_error (option json) :=
  match v with
  | VUndefined => Normal None
  | VNull => Normal (Some JNull)
  | VBool b => Normal (Some (JBool b))
  | VNumber (Finite n) => Normal (Some (JNumber n))
  | VNumber _ => Normal (Some JNull)
  | VString s => Normal (Some (JString s))
  | VArray elements =>
      SerializeJSONArray
        (map (fun element key =>
                r <- replacer key element ;;
                if is_undefined r then Normal None
                else SerializeJSONValue replacer element) elements)
  | VObject props =>
      SerializeJSONObject
        (map (fun p =>
                (fst p,
                 r <- replacer (fst p) (snd p) ;;
                 if is_undefined r then Normal None
                 else SerializeJSONValue replacer (snd p))) props)
  end.

Definition SerializeJSONProperty (replacer : replacer_function)
    (key : string) (v : value) : completion native_error (option json) :=
  r <- replacer key v ;;
  if is_undefined r then Normal None else SerializeJSONValue replacer v.

(** [JSON.stringify(value, replacer)]: the value is serialised as the
    property [""] of a wrapper object; the result is [undefined] ([None])
    when nothing is written. *)
Definition JSON_stringify (v : value) (replacer : replacer_function)
  : completion native_error (option json) :=
  SerializeJSONProperty replacer "" v.

(** The value a JSON text denotes; the members of an object are created one
    after the other. *)
Fixpoint InternalizeJSON (j : json) : value :=
  match j with
  | JNull => VNull
  | JBool b => VBool b
  | JNumber n => VNumber (Finite n)
  | JString s => VString s
  | JArray elements => VArray (map InternalizeJSON elements)
  | JObject members =>
      VObject (create_all
                 (map (fun m => (fst m, InternalizeJSON (snd m))) members) [])
  end.

(** [JSON.parse(text)]. Given [undefined], the argument is first converted
    to the string ["undefined"], which is not a JSON text. *)
Definition JSON_parse (text : option json) : completion native_error value :=
  match text with
  | Some j => Normal (InternalizeJSON j)
  | None => Throw SyntaxError
  end.

(** ** replaceNullsWithUndefined (lines 123-130) *)

Definition replaceNullsWithUndefined_replacer : replacer_function :=
  fun _ value =>
    s <- ToString value ;;
    if s =? "null" then Normal VUndefined
    else
      s' <- ToString value ;;
      if s' =? "undefined" then Normal VUndefined else Normal value.

Definition replaceNullsWithUndefined (someObj : value)
  : completion native_error value :=
  text <- JSON_stringify someObj replaceNullsWithUndefined_replacer ;;
  JSON_parse text.

(** The string forms the replacer filters out. *)
Definition removable (s : string) : bool :=
  (s =? "null") || (s =? "undefined").

(** All the numbers of a value are finite, as in anything read from a
    JSON text. *)
Fixpoint finite_numbers (v : value) : bool :=
  match v with
  | VNumber (Finite _) => true
  | VNumber _ => false
  | VArray elements => forallb finite_numbers elements
  | VObject props => forallb (fun p => finite_numbers (snd p)) props
  | _ => true
  end.

(** An object has one property per key. *)
Fixpoint distinct (keys : list string) : bool :=
  match keys with
  | [] => true
  | key :: keys' => negb (existsb (String.eqb key) keys') && distinct keys'
  end.

Fixpoint distinct_keys (v : value) : bool :=
  match v with
  | VArray elements => forallb distinct_keys elements
  | VObject props =>
      distinct (map fst props) && forallb (fun p => distinct_keys (snd p)) props
  | _ => true
  end.

(** What the replacer and the serialiser do with one node, by the string
    form of the node. *)
Definition visit (v : value) : completion native_error (option json) :=
  s <- ToString v ;;
  if removable s then Normal None
  else SerializeJSONValue replaceNullsWithUndefined_replacer v.

(** A value the replacer keeps, and a value the round trip gives back as
    it is. *)
Definition kept (v : value) : Prop :=
  exists s, ToString v = Normal s /\ removable s = false.

Definition fixed (v : value) : Prop :=
  exists j,
    SerializeJSONValue replaceNullsWithUndefined_replacer v = Normal (Some j)
    /\ InternalizeJSON j = v.

Definition settled (v : value) : Prop := kept v /\ fixed v.

(** ** jsYaml.dump with a replacer *)

(** The document js-yaml writes, as a tree of nodes. *)
Inductive yaml : Type :=
| YNull
| YBool (b : bool)
| YNumber (n : number)
| YString (s : string)
| YSequence (items : list yaml)
| YMapping (pairs : list (string * yaml)).

(** [writeNode] (js-yaml 4, dumper.js). The replacer is called on every
    element and member before it is written. [None] is the [false] that
    [writeNode] answers for [undefined]: [writeBlockSequence] then writes
    [null] in its place, [writeBlockMapping] skips the pair. The keys of a
    mapping come from [Object.keys]. *)
Fixpoint writeNode (replacer : string -> value -> value) (v : value)
  : option yaml :=
  match v with
  | VUndefined => None
  | VNull => Some YNull
  | VBool b => Some (YBool b)
  | VNumber n => Some (YNumber n)
  | VString s => Some (YString s)
  | VArray elements =>
      Some (YSequence
              (with_indices 0
                 (map (fun element key =>
                         match (if is_undefined (replacer key element) then None
                                else writeNode replacer element) with
                         | Some node => node
                         | None => YNull
                         end) elements)))
  | VObject props =>
      Some (YMapping
              (flat_map (fun m => match snd m with
                                  | Some node => [(fst m, node)]
                                  | None => []
                                  end)
                 (EnumerableOwnProperties
                    (map (fun p =>
                            (fst p,
                             if is_undefined (replacer (fst p) (snd p)) then None
                             else writeNode replacer (snd p))) props))))
  end.

(** The document of [dump(input, { replacer })]: the replacer is first
    called on the input itself, under the key [""]. *)
Definition dump_document (input : value) (replacer : string -> value -> value)
  : option yaml :=
  if is_undefined (replacer "" input) then None else writeNode replacer input.

(** The text js-yaml lays a document out as (block style, scalar styles,
    line folding): a function of the document. *)
Variable write_document : yaml -> string.

Definition jsYaml_dump (input : value) (replacer : string -> value -> value)
  : string :=
  match dump_document input replacer with
  | Some document => (write_document document ++ String "010" "")%string
  | None => ""
  end.

(** The replacer of lines 251-256. *)
Definition managedFields_replacer (managedFields : bool)
  : string -> value -> value :=
  fun key value =>
    if negb managedFields then
      if key =? "managedFields" then VUndefined else value
    else value.

(** The YAML view (lines 250-257). *)
Definition toYaml (object : value) (managedFields : bool) : string :=
  jsYaml_dump object (managedFields_replacer managedFields).

(** The value without its [managedFields] members, at any depth. *)
Fixpoint without_managedFields (v : value) : value :=
  match v with
  | VArray elements => VArray (map without_managedFields elements)
  | VObject props =>
      VObject (flat_map (fun p => if fst p =? "managedFields" then []
                                  else [(fst p, without_managedFields (snd p))])
                        props)
  | _ => v
  end.

(** All the keys of the objects of a value, at any depth. *)
Fixpoint value_keys (v : value) : list string :=
  match v with
  | VArray elements => flat_map value_keys elements
  | VObject props =>
      flat_map (fun p => fst p :: value_keys (snd p)) props
  | _ => []
  end.

(** All the keys of the mappings of a document, at any depth. *)
Fixpoint yaml_keys (node : yaml) : list string :=
  match node with
  | YSequence items => flat_map yaml_keys items
  | YMapping pairs =>
      flat_map (fun m => fst m :: yaml_keys (snd m)) pairs
  | _ => []
  end.

Definition document_keys (document : option yaml) : list string :=
  match document with
  | Some node => yaml_keys node
  | None => []
  end.

(** A member of a mapping is written when the replacer does not answer
    [undefined] for it. *)
Definition written (replacer : string -> value -> value) (p : string * value)
  : bool :=
  negb (is_undefined (replacer (fst p) (snd p))).

(** The keys of the mapping written for an object are those of its written
    members, in the order the members were created. *)
Definition keys_in_creation_order (props : list (string * value))
    (managedFields : bool) : Prop :=
  forall pairs,
    dump_document (VObject props) (managedFields_replacer managedFields)
    = Some (YMapping pairs) ->
    map fst pairs
    = map fst (filter (written (managedFields_replacer managedFields)) props).

(** Positions: [field_at path v w] says that following [path] from [v],
    through members and elements, leads to [w]; [node_at] is the same in a
    document. *)
Inductive step : Type :=
| Key (key : string)
| Index (i : nat).

Inductive field_at : list step -> value -> value -> Prop :=
| field_here (v : value) : field_at [] v v
| field_member (key : string) (props : list (string * value)) (u : value)
    (path : list step) (w : value) :
    In (key, u) props ->
    field_at path u w ->
    field_at (Key key :: path) (VObject props) w
| field_element (i : nat) (elements : list value) (u : value)
    (path : list step) (w : value) :
    nth_error elements i = Some u ->
    field_at path u w ->
    field_at (Index i :: path) (VArray elements) w.

Inductive node_at : list step -> yaml -> yaml -> Prop :=
| node_here (n : yaml) : node_at [] n n
| node_member (key : string) (pairs : list (string * yaml)) (u : yaml)
    (path : list step) (w : yaml) :
    In (key, u) pairs ->
    node_at path u w ->
    node_at (Key key :: path) (YMapping pairs) w
| node_element (i : nat) (items : list yaml) (u : yaml)
    (path : list step) (w : yaml) :
    nth_error items i = Some u ->
    node_at path u w ->
    node_at (Index i :: path) (YSequence items) w.

(** The path ends at a member of an object. *)
Fixpoint ends_with_key (path : list step) : bool :=
  match path with
  | [] => false
  | [Key _] => true
  | [Index _] => false
  | _ :: rest => ends_with_key rest
  end.

(** The path goes through no member named [managedFields]. *)
Fixpoint avoids_managedFields (path : list step) : bool :=
  match path with
  | [] => true
  | Key key :: rest => negb (key =? "managedFields") && avoids_managedFields rest
  | Index _ :: rest => avoids_managedFields rest
  end.

(** Somewhere in the value there is an object with an own property named
    [toString], which hides [Object.prototype.toString]. *)
Definition hides_toString (x : value) : Prop :=
  exists path props,
    field_at path x (VObject props) /\ has_own "toString" props = true.

(** What one element of an array, or one member of an object, becomes when
    the whole is normalised: its own normal form; an element that has none
    is written as [null], a member that has none is left out. *)
Definition normalised_element (normalise : value -> completion native_error value)
    (element : value) : value :=
  match normalise element with
  | Normal element' => element'
  | Throw _ => VNull
  end.

Definition normalised_member (normalise : value -> completion native_error value)
    (p : string * value) : list (string * value) :=
  match normalise (snd p) with
  | Normal member => [(fst p, member)]
  | Throw _ => []
  end.

(** ** tryFormatClusterLink (lines 132-144) *)

(** An error object as [formatClusterLink] throws it: made by [new Error]
    or by another standard constructor, with its message. *)
Record Error : Type := {
  error_constructor : native_error;
  error_message : string
}.

Definition error_name (err : Error) : string :=
  native_error_name (error_constructor err).

(** [Error.prototype.toString] *)
Definition Error_toString (err : Error) : string :=
  if error_name err =? "" then error_message err
  else if error_message err =? "" then error_name err
  else (error_name err ++ ": " ++ error_message err)%string.

(** [a || b] on strings: the empty string is falsy. *)
Definition string_or (a b : string) : string :=
  if a =? "" then b else a.

Record ClusterAttributes : Type := {
  cluster_name : string;
  cluster_dashboardUrl : option string;
  cluster_dashboardApp : option string;
  cluster_dashboardParameters : option value
}.

Record FormatClusterLinkOptions : Type := {
  dashboardUrl : option string;
  dashboardApp : option string;
  dashboardParameters : option value;
  object : value;
  kind : string
}.

(** The link is a string or [undefined]. *)
Record FormatResult : Type := {
  clusterLink : option string;
  errorMessage : string
}.

(** A link that is neither [undefined] nor empty. *)
Definition truthy (link : option string) : bool :=
  match link with
  | Some l => negb (l =? "")
  | None => false
  end.

(** [formatClusterLink] is imported from [utils/clusterLinks]; here it is
    any function that returns a link, or [undefined] when it formats
    nothing, or throws an error. *)
Variable formatClusterLink :
  FormatClusterLinkOptions -> completion Error (option string).

(** The options the content passes (lines 161-167): the attributes of the
    cluster that describe its dashboard, the object and its kind. *)
Definition link_options (cluster : ClusterAttributes) (object : value)
    (kind : string) : FormatClusterLinkOptions :=
  {| dashboardUrl := cluster_dashboardUrl cluster;
     dashboardApp := cluster_dashboardApp cluster;
     dashboardParameters := cluster_dashboardParameters cluster;
     object := object;
     kind := kind |}.

Definition tryFormatClusterLink (options : FormatClusterLinkOptions)
  : completion Error FormatResult :=
  try_catch
    (link <- formatClusterLink options ;;
     Normal {| clusterLink := link; errorMessage := "" |})
    (fun err =>
       Normal {| clusterLink := Some "";
                 errorMessage := string_or (error_message err)
                                           (Error_toString err) |}).

(** ** ErrorPanel (lines 97-110) *)

Record WarningPanel : Type := {
  panel_title : string;
  panel_message : string;
  panel_children : option string
}.

Definition ErrorPanel (cluster : ClusterAttributes) (errorMessage : string)
  : WarningPanel :=
  {| panel_title :=
       "There was a problem formatting the link to the Kubernetes dashboard";
     panel_message :=
       ("Could not format the link to the dashboard of your cluster named '"
        ++ cluster_name cluster
        ++ "'. Its dashboardApp property has been set to '"
        ++ match cluster_dashboardApp cluster with
           | Some app => string_or app "standard"
           | None => "standard"
           end
        ++ ".'")%string;
     panel_children :=
       if errorMessage =? "" then None
       else Some ("Errors: " ++ errorMessage)%string |}.

(** The cluster with another [dashboardApp]. *)
Definition with_dashboardApp (cluster : ClusterAttributes) (app : option string)
  : ClusterAttributes :=
  {| cluster_name := cluster_name cluster;
     cluster_dashboardUrl := cluster_dashboardUrl cluster;
     cluster_dashboardApp := app;
     cluster_dashboardParameters := cluster_dashboardParameters cluster |}.

(** The panel is rendered when there is an error message (lines 198-202). *)
Definition error_panel (cluster : ClusterAttributes) (result : FormatResult)
  : option WarningPanel :=
  if errorMessage result =? "" then None
  else Some (ErrorPanel cluster (errorMessage result)).

(** The formatter formatted nothing: it returned without a link. *)
Definition nothing_formatted (outcome : completion Error (option string)) : Prop :=
  exists link, outcome = Normal link /\ truthy link = false.

(** ** KubernetesDrawerContent (lines 146-268) *)

(** [value.key], for the keys [metadata] and [name]: no prototype defines
    them, so only an own property can answer; reading a property of
    [undefined] or [null] is a [TypeError]. *)
Definition GetV (v : value) (key : string) : completion native_error value :=
  match v with
  | VUndefined | VNull => Throw TypeError
  | VObject props =>
      Normal (match lookup key props with
              | Some a => a
              | None => VUndefined
              end)
  | _ => Normal VUndefined
  end.

(** [value?.key] *)
Definition optional_GetV (v : value) (key : string)
  : completion native_error value :=
  if is_nullish v then Normal VUndefined else GetV v key.

(** [a ?? b] *)
Definition nullish_or (a b : value) : value :=
  if is_nullish a then b else a.

(** [object.metadata?.name] *)
Definition metadata_name (object : value) : completion native_error value :=
  metadata <- GetV object "metadata" ;;
  optional_GetV metadata "name".

(** [object.metadata?.name] finds nothing: the object has no [metadata], or
    its [metadata] has no [name] (a property that is missing, [undefined]
    or [null]). *)
Definition absent (property : option value) : bool :=
  match property with
  | None | Some VUndefined | Some VNull => true
  | Some _ => false
  end.

Definition name_absent (props : list (string * value)) : Prop :=
  absent (lookup "metadata" props) = true
  \/ exists metadata,
      lookup "metadata" props = Some (VObject metadata)
      /\ absent (lookup "name" metadata) = true.

(** The two [useState] cells of the content. *)
Record state : Type := {
  isYaml : bool;
  managedFields : bool
}.

Definition initial_state : state :=
  {| isYaml := false; managedFields := false |}.

(** The [onChange] handlers of the two switches (lines 222-224, 234-238). *)
Inductive event : Type :=
| YamlChange (checked : bool)
| ManagedFieldsChange (checked : bool).

Definition handle (s : state) (e : event) : state :=
  match e with
  | YamlChange checked =>
      {| isYaml := checked; managedFields := managedFields s |}
  | ManagedFieldsChange checked =>
      if isYaml s then {| isYaml := isYaml s; managedFields := checked |}
      else s
  end.

(** The state after the handlers have run on a list of events. *)
Definition handle_all (s : state) (events : list event) : state :=
  fold_left handle events s.

(** The [checked] props of the two switches (lines 221, 233). *)
Definition yaml_checked (s : state) : bool := isYaml s.

Definition managedFields_checked (s : state) : bool :=
  isYaml s && managedFields s.

(** The title of the drawer (line 180). *)
Definition drawer_title (object : value) : completion native_error value :=
  name <- metadata_name object ;;
  Normal (nullish_or name (VString "unknown name")).

(** What the host's [renderObject] produces for the table. *)
Variable table : Type.
Variable renderObject : value -> table.

Inductive content : Type :=
| CodeSnippet (text : string)
| StructuredMetadataTable (metadata : table).

Record view : Type := {
  view_title : value;
  view_kind : string;
  view_error : option WarningPanel;
  view_dashboard_link : option string;
  view_yaml_checked : bool;
  view_managedFields_checked : bool;
  view_content : content
}.

Definition lift_format {A} (c : completion Error A)
  : completion (Error + native_error) A :=
  match c with
  | Normal a => Normal a
  | Throw err => Throw (inl err)
  end.

Definition lift_native {A} (c : completion native_error A)
  : completion (Error + native_error) A :=
  match c with
  | Normal a => Normal a
  | Throw err => Throw (inr err)
  end.

Definition KubernetesDrawerContent
    (cluster : ClusterAttributes) (object : value) (kind : string) (s : state)
  : completion (Error + native_error) view :=
  result <- lift_format
              (tryFormatClusterLink (link_options cluster object kind)) ;;
  title <- lift_native (drawer_title object) ;;
  shown <- (if isYaml s then Normal (CodeSnippet (toYaml object (managedFields s)))
            else
              normalized <- lift_native (replaceNullsWithUndefined object) ;;
              Normal (StructuredMetadataTable (renderObject normalized))) ;;
  Normal {| view_title := title;
            view_kind := kind;
            view_error := error_panel cluster result;
            view_dashboard_link :=
              if truthy (clusterLink result) then clusterLink result
              else None;
            view_yaml_checked := yaml_checked s;
            view_managedFields_checked := managedFields_checked s;
            view_content := shown |}.

(** ** KubernetesDrawer (lines 278-326) *)

(** What the button shows: the given children, or by default the name of
    the object in the given typography variant. *)
Inductive button_label (node : Type) : Type :=
| Typography (variant : string) (text : value)
| Children (children : node).

Definition KubernetesDrawer_button {node} (object : value)
    (buttonVariant : string) (children : option node)
  : completion native_error (button_label node) :=
  match children with
  | None =>
      name <- metadata_name object ;;
      Normal (Typography node buttonVariant
                (nullish_or name (VString "unknown object")))
  | Some c => Normal (Children c)
  end.

(** A DOM event, as far as the handlers of the drawer use it: whether its
    propagation has been stopped. *)
Record Event : Type := {
  propagation_stopped : bool
}.

Definition stopPropagation (e : Event) : Event :=
  {| propagation_stopped := true |}.

(** [useState(expanded)], with the default [expanded = false] (lines 283,
    286). *)
Definition KubernetesDrawer_initial (expanded : option bool) : bool :=
  match expanded with
  | Some open => open
  | None => false
  end.

(** [toggleDrawer] (lines 289-292): the new value is set, whatever the
    current one. The result is the event and the new [isOpen]. *)
Definition toggleDrawer (e : Event) (newValue : bool) (isOpen : bool)
  : Event * bool :=
  (stopPropagation e, newValue).

(** The handlers the drawer attaches: [onClick] and [onFocus] of the button
    (lines 297-298), [onClose] and [onClick] of the drawer (lines 314-315),
    and [onClick] of the dismiss button of the content (line 192). *)
Inductive drawer_handler : Type :=
| ButtonClick
| ButtonFocus
| DrawerClose
| DrawerClick
| DismissClick.

Definition KubernetesDrawer_handle (handler : drawer_handler) (e : Event)
    (isOpen : bool) : Event * bool :=
  match handler with
  | ButtonClick => toggleDrawer e true isOpen
  | ButtonFocus => (stopPropagation e, isOpen)
  | DrawerClose => toggleDrawer e false isOpen
  | DrawerClick => (stopPropagation e, isOpen)
  | DismissClick => toggleDrawer e false isOpen
  end.

(** The [open] prop of the drawer (line 313) after the handlers have run
    on a list of events, each with the event it was given. *)
Definition KubernetesDrawer_open (expanded : option bool)
    (events : list (drawer_handler * Event)) : bool :=
  fold_left (fun isOpen he => snd (KubernetesDrawer_handle (fst he) (snd he) isOpen))
            events (KubernetesDrawer_initial expanded).

(** The handler changes [isOpen] at all. *)
Definition sets_open (handler : drawer_handler) : bool :=
  match handler with
  | ButtonClick | DrawerClose | DismissClick => true
  | ButtonFocus | DrawerClick => false
  end.

End Drawer.

Arguments VUndefined {num}.
Arguments YNull {num}.
Arguments YBool {num} b.
Arguments YString {num} s.
Arguments JNull {num}.
Arguments JBool {num} b.
Arguments JString {num} s.
Arguments VNull {num}.
Arguments VBool {num} b.
Arguments VString {num} s.
Arguments NaN {num}.
Arguments Infinity {num} negative.

(** Integers with their decimal form stand for the finite numbers in the
    worked examples. *)
Definition Z_to_string (z : Z) : string := NilZero.string_of_int (Z.to_int z).

Definition int (z : Z) : value Z := VNumber (Finite z).

(** A formatter that knows no dashboard application at all. *)
Definition unsupported_formatter (options : FormatClusterLinkOptions Z)
  : completion Error (option string) :=
  Throw {| error_constructor := PlainError;
           error_message :=
             ("Could not find Kubernetes dashboard app named '"
              ++ match dashboardApp options with
                 | Some app => string_or app "standard"
                 | None => "standard"
                 end
              ++ "'")%string |}.

Definition production : ClusterAttributes Z :=
  {| cluster_name := "production";
     cluster_dashboardUrl := Some "https://dashboard.example";
     cluster_dashboardApp := Some "lens";
     cluster_dashboardParameters := None |}.

Definition pod : value Z :=
  VObject [("metadata", VObject [("name", VString "pod-a")]);
           ("status", VString "Running")].

(** A formatter that links to the dashboard itself. *)
Definition dashboard_formatter (options : FormatClusterLinkOptions Z)
  : completion Error (option string) :=
  Normal (dashboardUrl options).

(** A pod with its managed fields. *)
Definition managed_pod : value Z :=
  VObject [("metadata",
            VObject [("name", VString "pod-a");
                     ("managedFields",
                      VArray [VObject [("manager", VString "kubectl")]])]);
           ("status", VString "Running")].

(** The example of the specification: [{a: null, b: "undefined", c: 1}]. *)
Definition example_object : value Z :=
  VObject [("a", VNull); ("b", VString "undefined"); ("c", int 1)].

(** An object with a [null] in an array. *)
Definition null_in_array : value Z :=
  VObject [("a", VArray [VNull])].

(** An object with a member that is not a number. *)
Definition NaN_member : value Z :=
  VObject [("a", VNumber NaN)].

(** A pod with a label named [toString]. *)
Definition labelled_pod : value Z :=
  VObject [("metadata",
            VObject [("name", VString "pod-a");
                     ("labels",
                      VObject [("app", VString "web");
                               ("toString", VString "x")])])].

(** An object created with the key [b] before the key [1]. *)
Definition numeric_key_last : list (string * value Z) :=
  [("b", int 1); ("1", int 2)].

Definition unnamed_pod : list (string * value Z) :=
  [("metadata", VObject [("namespace", VString "default")]);
   ("status", VString "Running")].

(** An object with a removable member, and with its array index created
    last. *)
Definition index_key_last : list (string * value Z) :=
  [("b", VNull); ("c", int 1); ("1", VString "x")].

(** An array with elements that have no normal form. *)
Definition mixed_array : list (value Z) :=
  [VNull; VString "undefined"; int 1; VArray [VString "null"]; VNumber NaN].

(** A formatter that throws an error without a message. *)
Definition silent_formatter (options : FormatClusterLinkOptions Z)
  : completion Error (option string) :=
  Throw {| error_constructor := TypeError; error_message := "" |}.

(** A pod whose name is the empty string. *)
Definition empty_named_pod : list (string * value Z) :=
  [("metadata", VObject [("name", VString "")])].

(** The claim that normalising removes every node whose string form is
    "null" or "undefined". *)
Definition removable_nodes_absent (x : value Z) : Prop :=
  forall (y : value Z) (path : list step) (w : value Z) (s : string)
         (w' : value Z),
    replaceNullsWithUndefined Z_to_string x = Normal y ->
    field_at path x w ->
    ToString Z_to_string w = Normal s ->
    s = "null" \/ s = "undefined" ->
    ~ field_at path y w'.

(** The claim that a failed formatting reports the name of the cluster in
    its error message. *)
Definition error_names_cluster
    (formatClusterLink :
       FormatClusterLinkOptions Z -> completion Error (option string))
  : Prop :=
  forall cluster object kind err,
    formatClusterLink (link_options cluster object kind) = Throw err ->
    exists r,
      tryFormatClusterLink formatClusterLink (link_options cluster object kind)
      = Normal r
      /\ truthy (clusterLink r) = false
      /\ errorMessage r <> ""
      /\ contains (cluster_name cluster) (errorMessage r).


(** ** Facts *)

(** *** The order of the keys of an object *)

Section KeyOrder.

Variables A B : Type.

(** A change of the values that keeps the keys. *)
Variable f : string * A -> B.

Local Notation relabel := (fun p : string * A => (fst p, f p)).

Local Notation relabel_indexed :=
  (fun e : N * (string * A) => (fst e, (fst (snd e), f (snd e)))).

Lemma indexed_map (props : list (string * A)) :
  indexed (map relabel props) = map relabel_indexed (indexed props).
Proof.
  induction props as [ | p props IH]; simpl; [reflexivity | ].
  rewrite IH. destruct (array_index (fst p)); reflexivity.
Qed.

Lemma named_map (props : list (string * A)) :
  named (map relabel props) = map relabel (named props).
Proof.
  induction props as [ | p props IH]; simpl; [reflexivity | ].
  rewrite IH. destruct (array_index (fst p)); reflexivity.
Qed.

Lemma insert_indexed_map (e : N * (string * A)) (l : list (N * (string * A))) :
  insert_indexed (relabel_indexed e) (map relabel_indexed l)
  = map relabel_indexed (insert_indexed e l).
Proof.
  induction l as [ | e' l IH]; simpl; [reflexivity | ].
  destruct (fst e <=? fst e')%N; simpl; [reflexivity | now rewrite IH].
Qed.

Lemma sort_indexed_map (l : list (N * (string * A))) :
  sort_indexed (map relabel_indexed l) = map relabel_indexed (sort_indexed l).
Proof.
  induction l as [ | e l IH]; simpl; [reflexivity | ].
  unfold sort_indexed in *. simpl. rewrite IH. apply insert_indexed_map.
Qed.

(** The order of enumeration depends on the keys alone. *)
Lemma EnumerableOwnProperties_map (props : list (string * A)) :
  EnumerableOwnProperties (map relabel props)
  = map relabel (EnumerableOwnProperties props).
Proof.
  unfold EnumerableOwnProperties.
  rewrite indexed_map, sort_indexed_map, named_map, map_app, !map_map.
  reflexivity.
Qed.

End KeyOrder.

Section KeyOrderFacts.

Variable A : Type.

Lemma insert_indexed_perm (e : N * (string * A)) (l : list (N * (string * A))) :
  Permutation (insert_indexed e l) (e :: l).
Proof.
  induction l as [ | e' l IH]; simpl; [reflexivity | ].
  destruct (fst e <=? fst e')%N; [reflexivity | ].
  rewrite IH. apply perm_swap.
Qed.

Lemma sort_indexed_perm (l : list (N * (string * A))) :
  Permutation (sort_indexed l) l.
Proof.
  induction l as [ | e l IH]; simpl; [reflexivity | ].
  unfold sort_indexed in *. simpl.
  rewrite insert_indexed_perm. now constructor.
Qed.

Lemma indexed_named_perm (props : list (string * A)) :
  Permutation (map snd (indexed props) ++ named props) props.
Proof.
  induction props as [ | p props IH]; simpl; [reflexivity | ].
  destruct (array_index (fst p)); simpl.
  - now constructor.
  - rewrite <- Permutation_middle. now constructor.
Qed.

(** Enumeration reorders the properties and loses none. *)
Lemma EnumerableOwnProperties_perm (props : list (string * A)) :
  Permutation (EnumerableOwnProperties props) props.
Proof.
  unfold EnumerableOwnProperties.
  rewrite sort_indexed_perm. apply indexed_named_perm.
Qed.

Lemma EnumerableOwnProperties_In (p : string * A) (props : list (string * A)) :
  In p (EnumerableOwnProperties props) <-> In p props.
Proof.
  split; apply Permutation_in;
    [ | symmetry ]; apply EnumerableOwnProperties_perm.
Qed.

(** Without array indices among the keys, the order is that of creation. *)
Lemma EnumerableOwnProperties_named (props : list (string * A)) :
  (forall p, In p props -> array_index (fst p) = None) ->
  EnumerableOwnProperties props = props.
Proof.
  intros Hnamed. unfold EnumerableOwnProperties.
  induction props as [ | p props IH]; simpl; [reflexivity | ].
  rewrite (Hnamed p (or_introl eq_refl)). simpl. simpl in IH.
  assert (Hrest : forall q, In q props -> array_index (fst q) = None)
    by (intros q Hq; apply Hnamed; now right).
  specialize (IH Hrest).
  assert (Hnone : indexed props = []).
  { clear IH. induction props as [ | q props IHprops]; simpl; [reflexivity | ].
    rewrite (Hrest q (or_introl eq_refl)). simpl.
    apply IHprops.
    - intros r Hr. apply Hnamed. simpl in *. tauto.
    - intros r Hr. apply Hrest. now right. }
  rewrite Hnone in *. simpl in *. now rewrite IH.
Qed.

Lemma insert_indexed_least (e : N * (string * A)) (l : list (N * (string * A))) :
  Forall (fun e' => (fst e <= fst e')%N) l -> insert_indexed e l = e :: l.
Proof.
  intros Hleast. destruct l as [ | e' l]; simpl; [reflexivity | ].
  inversion Hleast as [ | ? ? Hle _]; subst.
  apply N.leb_le in Hle. now rewrite Hle.
Qed.

Lemma insert_indexed_filter (g : N * (string * A) -> bool)
    (e : N * (string * A)) (l : list (N * (string * A))) :
  StronglySorted (fun a b => (fst a <= fst b)%N) l ->
  filter g (insert_indexed e l)
  = if g e then insert_indexed e (filter g l) else filter g l.
Proof.
  induction 1 as [ | e' l Hsorted IH Hleast]; simpl.
  - now destruct (g e).
  - destruct (fst e <=? fst e')%N eqn:Hle; simpl.
    + destruct (g e) eqn:He; [ | reflexivity].
      destruct (g e') eqn:He'; simpl; [now rewrite Hle | ].
      rewrite insert_indexed_least; [reflexivity | ].
      apply N.leb_le in Hle. rewrite Forall_forall in *.
      intros a Ha. apply filter_In in Ha. destruct Ha as [Ha _].
      specialize (Hleast a Ha). simpl in *. lia.
    + rewrite IH. destruct (g e'); simpl; [ | reflexivity].
      destruct (g e); [ | reflexivity]. simpl. now rewrite Hle.
Qed.

Lemma indexed_spec (props : list (string * A)) :
  Forall (fun e => array_index (fst (snd e)) = Some (fst e)) (indexed props).
Proof.
  induction props as [ | p props IH]; simpl; [constructor | ].
  destruct (array_index (fst p)) eqn:Hp; simpl; [ | exact IH].
  constructor; [exact Hp | exact IH].
Qed.

(** Properties that are already in the order of enumeration are
    enumerated as they stand. *)
Lemma EnumerableOwnProperties_ordered (props : list (string * A)) :
  StronglySorted key_le (map fst props) ->
  EnumerableOwnProperties props = props.
Proof.
  unfold EnumerableOwnProperties.
  induction props as [ | p props IH]; simpl; [reflexivity | ].
  intros Hsorted. inversion Hsorted as [ | ? ? Hrest Hfirst]; subst.
  specialize (IH Hrest).
  destruct (array_index (fst p)) as [i | ] eqn:Hp; simpl.
  - unfold sort_indexed in *. simpl.
    rewrite insert_indexed_least.
    + simpl. now rewrite IH.
    + eapply Permutation_Forall;
        [symmetry; apply sort_indexed_perm | ].
      pose proof (indexed_spec props) as Hspec.
      assert (Hin : forall e, In e (indexed props) -> In (fst (snd e)) (map fst props)).
      { clear. intros e. unfold indexed. rewrite in_flat_map.
        intros (q & Hq & He). destruct (array_index (fst q)); [ | contradiction].
        destruct He as [<- | []]. simpl. now apply in_map. }
      rewrite Forall_forall in *. intros e He. simpl.
      specialize (Hfirst _ (Hin e He)). unfold key_le in Hfirst.
      rewrite Hp, (Hspec e He) in Hfirst. exact Hfirst.
  - assert (Hnone : forall q, In q props -> array_index (fst q) = None).
    { intros q Hq. rewrite Forall_forall in Hfirst.
      specialize (Hfirst (fst q) (in_map fst _ _ Hq)).
      unfold key_le in Hfirst. rewrite Hp in Hfirst.
      destruct (array_index (fst q)); [contradiction | reflexivity]. }
    assert (Hempty : indexed props = []).
    { clear - Hnone. induction props as [ | q props IHp]; simpl; [reflexivity | ].
      rewrite (Hnone q (or_introl eq_refl)). simpl. apply IHp.
      intros r Hr. apply Hnone. now right. }
    rewrite Hempty in *. simpl in *. now rewrite IH.
Qed.

Lemma insert_indexed_sorted (e : N * (string * A)) (l : list (N * (string * A))) :
  StronglySorted (fun a b => (fst a <= fst b)%N) l ->
  StronglySorted (fun a b => (fst a <= fst b)%N) (insert_indexed e l).
Proof.
  induction 1 as [ | e' l Hsorted IH Hleast]; simpl.
  - repeat constructor.
  - destruct (fst e <=? fst e')%N eqn:Hle.
    + apply N.leb_le in Hle. constructor; [now constructor | ].
      constructor; [exact Hle | ].
      eapply Forall_impl; [ | exact Hleast]. simpl. intros a Ha. lia.
    + apply N.leb_gt in Hle. constructor; [exact IH | ].
      eapply Permutation_Forall;
        [symmetry; apply insert_indexed_perm | ].
      constructor; [lia | exact Hleast].
Qed.

Lemma sort_indexed_sorted (l : list (N * (string * A))) :
  StronglySorted (fun a b => (fst a <= fst b)%N) (sort_indexed l).
Proof.
  induction l as [ | e l IH]; simpl; [constructor | ].
  now apply insert_indexed_sorted.
Qed.

(** The order of enumeration is what [key_le] says. *)
Lemma EnumerableOwnProperties_sorted (props : list (string * A)) :
  StronglySorted key_le (map fst (EnumerableOwnProperties props)).
Proof.
  unfold EnumerableOwnProperties.
  assert (Hspec : Forall (fun e => array_index (fst (snd e)) = Some (fst e))
                         (sort_indexed (indexed props))).
  { eapply Permutation_Forall;
      [symmetry; apply sort_indexed_perm | apply indexed_spec]. }
  assert (Hnamed : Forall (fun p => array_index (fst p) = None) (named props)).
  { unfold named. rewrite Forall_forall. intros p Hp.
    apply filter_In in Hp. destruct Hp as [_ Hp].
    destruct (array_index (fst p)); [discriminate | reflexivity]. }
  pose proof (sort_indexed_sorted (indexed props)) as Hsorted.
  induction Hsorted as [ | e l Hsorted IH Hleast]; simpl.
  - induction Hnamed as [ | p l Hp Hl IH]; simpl; constructor; auto.
    rewrite Forall_forall in *. intros k Hk. apply in_map_iff in Hk.
    destruct Hk as (q & <- & Hq). unfold key_le. now rewrite Hp, (Hl q Hq).
  - inversion Hspec as [ | ? ? He Hrest]; subst.
    constructor; [apply IH; exact Hrest | ].
    rewrite map_app, Forall_app. split.
    + rewrite Forall_forall in *. intros k Hk. rewrite map_map in Hk.
      apply in_map_iff in Hk. destruct Hk as (e' & <- & He').
      unfold key_le. rewrite He, (Hrest e' He'). exact (Hleast e' He').
    + rewrite Forall_forall in *. intros k Hk. apply in_map_iff in Hk.
      destruct Hk as (q & <- & Hq). unfold key_le. now rewrite He, (Hnamed q Hq).
Qed.

Lemma sort_indexed_filter (g : N * (string * A) -> bool)
    (l : list (N * (string * A))) :
  sort_indexed (filter g l) = filter g (sort_indexed l).
Proof.
  induction l as [ | e l IH]; simpl; [reflexivity | ].
  change (sort_indexed (e :: l)) with (insert_indexed e (sort_indexed l)).
  rewrite insert_indexed_filter by apply sort_indexed_sorted.
  destruct (g e); [ | exact IH].
  change (sort_indexed (e :: filter g l))
    with (insert_indexed e (sort_indexed (filter g l))).
  now rewrite IH.
Qed.

(** Leaving properties out by their keys does not change the order of the
    others. *)
Lemma EnumerableOwnProperties_filter (g : string -> bool)
    (props : list (string * A)) :
  EnumerableOwnProperties (filter (fun p => g (fst p)) props)
  = filter (fun p => g (fst p)) (EnumerableOwnProperties props).
Proof.
  unfold EnumerableOwnProperties. rewrite filter_app. f_equal.
  - assert (Hindexed : indexed (filter (fun p => g (fst p)) props)
                       = filter (fun e => g (fst (snd e))) (indexed props)).
    { induction props as [ | p props IH]; simpl; [reflexivity | ].
      destruct (g (fst p)) eqn:Hp; simpl; rewrite IH;
        destruct (array_index (fst p)); simpl; try rewrite Hp; reflexivity. }
    rewrite Hindexed, sort_indexed_filter.
    induction (sort_indexed (indexed props)) as [ | e l IH]; simpl; [reflexivity | ].
    destruct (g (fst (snd e))); simpl; now rewrite IH.
  - unfold named. induction props as [ | p props IH]; simpl; [reflexivity | ].
    destruct (g (fst p)) eqn:Hp; simpl;
      destruct (array_index (fst p)) eqn:Hi; simpl;
      rewrite ?Hp; simpl; rewrite ?IH; reflexivity.
Qed.

(** [CreateDataProperty] and the keys. *)
Lemma CreateDataProperty_keys (key : string) (a : A) (props : list (string * A)) :
  map fst (CreateDataProperty key a props)
  = if has_own key props then map fst props else map fst props ++ [key].
Proof.
  induction props as [ | [k a'] props IH]; simpl; [reflexivity | ].
  destruct (String.eqb_spec k key) as [-> | Hk]; simpl; [reflexivity | ].
  rewrite IH. now destruct (has_own key props).
Qed.

Lemma has_own_In (key : string) (props : list (string * A)) :
  has_own key props = true <-> In key (map fst props).
Proof.
  unfold has_own. rewrite existsb_exists, in_map_iff.
  split; intros (p & H1 & H2).
  - apply String.eqb_eq in H2. eauto.
  - exists p. split; [exact H2 | now apply String.eqb_eq].
Qed.

Lemma CreateDataProperty_In (key : string) (a : A) (props : list (string * A))
    (p : string * A) :
  In p (CreateDataProperty key a props) -> In p props \/ p = (key, a).
Proof.
  induction props as [ | [k a'] props IH]; simpl.
  - intros [<- | []]. now right.
  - destruct (String.eqb_spec k key) as [-> | Hk]; simpl.
    + intros [<- | Hin]; auto.
    + intros [<- | Hin]; auto. destruct (IH Hin); auto.
Qed.

Lemma CreateDataProperty_new (key : string) (a : A) (props : list (string * A)) :
  ~ In key (map fst props) ->
  CreateDataProperty key a props = props ++ [(key, a)].
Proof.
  induction props as [ | [k a'] props IH]; simpl; [reflexivity | ].
  intros Hnew. destruct (String.eqb_spec k key) as [-> | Hk]; [tauto | ].
  rewrite IH; tauto.
Qed.

Lemma create_all_In (members props : list (string * A)) (p : string * A) :
  In p (create_all members props) -> In p props \/ In p members.
Proof.
  revert props. induction members as [ | m members IH]; simpl; intros props Hin;
    [now left | ].
  destruct (IH _ Hin) as [Hcreated | Hrest]; [ | auto].
  destruct (CreateDataProperty_In _ _ _ _ Hcreated) as [Hold | ->]; auto.
  destruct m; auto.
Qed.

Lemma create_all_NoDup (members props : list (string * A)) :
  NoDup (map fst props) -> NoDup (map fst (create_all members props)).
Proof.
  revert props. induction members as [ | m members IH]; simpl; intros props Hprops;
    [exact Hprops | ].
  apply IH. rewrite CreateDataProperty_keys.
  destruct (has_own (fst m) props) eqn:Hown; [exact Hprops | ].
  eapply Permutation_NoDup; [apply Permutation_cons_append | ].
  constructor; [ | exact Hprops].
  intros Hin. apply has_own_In in Hin. congruence.
Qed.

Lemma StronglySorted_remove (R : string -> string -> Prop)
    (l1 l2 : list string) (k : string) :
  StronglySorted R (l1 ++ k :: l2) -> StronglySorted R (l1 ++ l2).
Proof.
  induction l1 as [ | a l1 IH]; simpl; intros Hsorted;
    inversion Hsorted as [ | ? ? Hrest Hfirst]; subst; [exact Hrest | ].
  constructor; [now apply IH | ].
  rewrite Forall_app in *. destruct Hfirst as [H1 H2].
  inversion H2; subst. now split.
Qed.

Lemma create_all_sorted (members props : list (string * A)) :
  StronglySorted key_le (map fst props ++ map fst members) ->
  StronglySorted key_le (map fst (create_all members props)).
Proof.
  revert props. induction members as [ | m members IH]; simpl; intros props Hsorted.
  - now rewrite app_nil_r in Hsorted.
  - apply IH. rewrite CreateDataProperty_keys.
    destruct (has_own (fst m) props).
    + eapply StronglySorted_remove. exact Hsorted.
    + now rewrite <- app_assoc.
Qed.

(** Creating properties with distinct keys on an empty object gives them
    as they are. *)
Lemma create_all_distinct (members props : list (string * A)) :
  NoDup (map fst (props ++ members)) ->
  create_all members props = props ++ members.
Proof.
  revert props. induction members as [ | [k a] members IH]; simpl; intros props Hnodup.
  - now rewrite app_nil_r.
  - rewrite CreateDataProperty_new.
    + rewrite IH; rewrite <- app_assoc; [reflexivity | exact Hnodup].
    + rewrite map_app in Hnodup. simpl in Hnodup.
      apply NoDup_remove_2 in Hnodup. rewrite in_app_iff in Hnodup. tauto.
Qed.

End KeyOrderFacts.


Section Facts.

Variable num : Type.
Variable num_to_string : num -> string.

Local Notation value := (value num).
Local Notation ToString := (ToString num_to_string).
Local Notation replaceNullsWithUndefined :=
  (replaceNullsWithUndefined num_to_string).
Local Notation managedFields_replacer := (@managedFields_replacer num).
Local Notation yaml := (yaml num).
Local Notation json := (json num).

(** Induction on values, with the hypothesis for every element and every
    member. *)
Lemma value_induction (P : value -> Prop) :
  P VUndefined ->
  P VNull ->
  (forall b, P (VBool b)) ->
  (forall n, P (VNumber n)) ->
  (forall s, P (VString s)) ->
  (forall elements, Forall P elements -> P (VArray elements)) ->
  (forall props, Forall (fun p => P (snd p)) props -> P (VObject props)) ->
  forall v, P v.
Proof.
  intros Hundefined Hnull Hbool Hnumber Hstring Harray Hobject.
  fix IH 1. intros [ | | b | n | s | elements | props].
  - exact Hundefined.
  - exact Hnull.
  - apply Hbool.
  - apply Hnumber.
  - apply Hstring.
  - apply Harray. induction elements as [ | e elements IHl]; constructor.
    + apply IH.
    + exact IHl.
  - apply Hobject. induction props as [ | [k e] props IHl]; constructor.
    + apply IH.
    + exact IHl.
Qed.

Lemma nth_error_with_indices (B : Type) (l : list (string -> B)) :
  forall (start : N) (i : nat),
    nth_error (with_indices start l) i
    = option_map (fun g => g (index_to_string (start + N.of_nat i)))
                 (nth_error l i).
Proof.
  induction l as [ | g l IH]; intros start i; simpl.
  - destruct i; reflexivity.
  - destruct i as [ | i]; simpl.
    + now rewrite N.add_0_r.
    + rewrite IH. replace (N.succ start + N.of_nat i)%N
        with (start + N.pos (Pos.of_succ_nat i))%N by lia.
      reflexivity.
Qed.

Lemma In_with_indices (B : Type) (l : list (string -> B)) :
  forall (start : N) (b : B),
    In b (with_indices start l) -> exists g key, In g l /\ b = g key.
Proof.
  induction l as [ | g l IH]; intros start b; simpl; [contradiction | ].
  intros [<- | Hin].
  - eauto.
  - destruct (IH _ _ Hin) as (g' & key & Hg' & ->). eauto.
Qed.

Lemma with_indices_map_ext (B C : Type) (g1 g2 : C -> string -> B)
    (l : list C) :
  (forall c i, In c l -> g1 c (index_to_string i) = g2 c (index_to_string i)) ->
  forall start,
    with_indices start (map g1 l) = with_indices start (map g2 l).
Proof.
  induction l as [ | c l IH]; intros Hagree start; simpl; [reflexivity | ].
  rewrite Hagree by now left.
  rewrite IH; [reflexivity | ]. intros c' i Hc'. apply Hagree. now right.
Qed.

Lemma index_not_managedFields (i : N) :
  (index_to_string i =? "managedFields") = false.
Proof.
  unfold index_to_string. destruct (N.to_uint i); reflexivity.
Qed.

(** *** Sequences of calls *)

Lemma sequence_Normal (E B : Type) (l : list (completion E B)) (r : list B) :
  sequence l = Normal r <-> Forall2 (fun c b => c = Normal b) l r.
Proof.
  revert r. induction l as [ | c l IH]; intros r; simpl.
  - split; intros H; [injection H as <-; constructor | now inversion H].
  - split.
    + destruct c as [b | e]; simpl; [ | discriminate].
      destruct (sequence l) as [r' | e] eqn:Hl; simpl; [ | discriminate].
      intros H. injection H as <-. constructor; [reflexivity | now apply IH].
    + intros H. inversion H as [ | ? b ? r' Hc Hl]; subst. simpl.
      apply IH in Hl. now rewrite Hl.
Qed.

Lemma sequence_map_Normal (E B C : Type) (g : C -> completion E B)
    (l : list C) (r : list B) :
  sequence (map g l) = Normal r <-> Forall2 (fun c b => g c = Normal b) l r.
Proof.
  rewrite sequence_Normal. revert r.
  induction l as [ | c l IH]; intros r; simpl; split; intros H;
    inversion H; subst; constructor; auto; now apply IH.
Qed.

Lemma with_indices_constant (B C : Type) (g : C -> B) (l : list C) :
  forall start, with_indices start (map (fun c _ => g c) l) = map g l.
Proof.
  induction l as [ | c l IH]; intros start; simpl; [reflexivity | ].
  now rewrite IH.
Qed.

(** *** replaceNullsWithUndefined *)

Local Notation replacer := (replaceNullsWithUndefined_replacer num_to_string).
Local Notation Serialize := (SerializeJSONValue replacer).
Local Notation visit := (visit num_to_string).

Lemma ToString_undefined (v : value) :
  is_undefined v = true -> ToString v = Normal "undefined".
Proof. destruct v; simpl; intros H; try discriminate; reflexivity. Qed.

(** The replacer answers [undefined] or the value it was given, which is
    what the serialiser relies on. *)
Lemma replaceNullsWithUndefined_replacer_filters (key : string) (v r : value) :
  replacer key v = Normal r -> r = VUndefined \/ r = v.
Proof.
  unfold replaceNullsWithUndefined_replacer.
  destruct (ToString v) as [s | e]; simpl; [ | discriminate].
  destruct (s =? "null"); simpl; [intros H; injection H as <-; now left | ].
  destruct (s =? "undefined"); intros H; injection H as <-; auto.
Qed.

Lemma SerializeJSONProperty_visit (key : string) (v : value) :
  SerializeJSONProperty replacer key v = visit v.
Proof.
  unfold SerializeJSONProperty, visit, replaceNullsWithUndefined_replacer, removable.
  destruct (ToString v) as [s | e] eqn:Hs; simpl; [ | reflexivity].
  destruct (s =? "null"); simpl; [reflexivity | ].
  destruct (s =? "undefined") eqn:Hu; simpl; [reflexivity | ].
  destruct (is_undefined v) eqn:Hv; [ | reflexivity].
  apply ToString_undefined in Hv. rewrite Hv in Hs. injection Hs as <-.
  discriminate Hu.
Qed.

Lemma Serialize_array (elements : list value) :
  Serialize (VArray elements)
  = parts <- sequence (map visit elements) ;;
    Normal (Some (JArray (map (fun part => match part with
                                           | Some j => j
                                           | None => JNull
                                           end) parts))).
Proof.
  simpl. unfold SerializeJSONArray. do 2 f_equal.
  erewrite with_indices_map_ext.
  - apply with_indices_constant.
  - intros e i _. apply (SerializeJSONProperty_visit (index_to_string i) e).
Qed.

Lemma Serialize_object (props : list (string * value)) :
  Serialize (VObject props)
  = parts <- sequence (map (fun p => part <- visit (snd p) ;;
                                     Normal (fst p, part))
                           (EnumerableOwnProperties props)) ;;
    Normal (Some (JObject (flat_map (fun m : string * option json =>
                                       match snd m with
                                       | Some j => [(fst m, j)]
                                       | None => []
                                       end) parts))).
Proof.
  simpl. unfold SerializeJSONObject. do 2 f_equal.
  pose proof (EnumerableOwnProperties_map
                (fun p : string * value =>
                   SerializeJSONProperty replacer (fst p) (snd p)) props) as Hmap.
  simpl in Hmap. unfold SerializeJSONProperty in Hmap at 1.
  rewrite Hmap, map_map. apply map_ext. intros p. simpl.
  now rewrite SerializeJSONProperty_visit.
Qed.

Lemma replaceNullsWithUndefined_visit (someObj : value) :
  replaceNullsWithUndefined someObj = text <- visit someObj ;; JSON_parse text.
Proof.
  unfold replaceNullsWithUndefined, JSON_stringify.
  now rewrite SerializeJSONProperty_visit.
Qed.

Local Notation kept := (kept num_to_string).
Local Notation fixed := (fixed num_to_string).
Local Notation settled := (settled num_to_string).

Lemma visit_kept (v : value) : kept v -> visit v = Serialize v.
Proof.
  intros (s & Hs & Hkept). unfold visit. rewrite Hs. simpl. now rewrite Hkept.
Qed.

Lemma visit_written (v : value) (j : json) :
  visit v = Normal (Some j) -> kept v /\ Serialize v = Normal (Some j).
Proof.
  unfold visit. destruct (ToString v) as [s | e] eqn:Hs; simpl; [ | discriminate].
  destruct (removable s) eqn:Hkept; [discriminate | ].
  intros Hj. split; [now exists s | exact Hj].
Qed.

Lemma kept_not_nullish (v : value) : kept v -> is_nullish v = false.
Proof.
  intros (s & Hs & Hkept).
  destruct v; try reflexivity; simpl in Hs; injection Hs as <-; discriminate.
Qed.

Lemma comma_not_removable (a b : string) :
  removable (a ++ "," ++ b)%string = false.
Proof.
  unfold removable. apply orb_false_iff. split; apply String.eqb_neq; intros H;
    repeat (destruct a as [ | ? a]; simpl in H; [discriminate | injection H as ? H]);
    destruct a; discriminate.
Qed.

Lemma concat_not_removable (parts : list string) :
  Forall (fun s => removable s = false) parts ->
  removable (String.concat "," parts) = false.
Proof.
  intros Hparts. destruct parts as [ | s [ | s' parts]]; simpl.
  - reflexivity.
  - now inversion Hparts.
  - apply comma_not_removable.
Qed.

(** An array whose elements are [null] or settled is settled. *)
Lemma array_kept (elements : list value) :
  Forall (fun e => e = VNull \/ settled e) elements -> kept (VArray elements).
Proof.
  intros Helements.
  assert (Hparts : exists parts,
             sequence (map (fun e => if is_nullish e then Normal ""
                                     else ToString e) elements)
             = Normal parts
             /\ Forall (fun s => removable s = false) parts).
  { induction Helements as [ | e elements He _ IH]; simpl.
    - exists []. split; [reflexivity | constructor].
    - destruct IH as (parts & Hparts & Hkept). rewrite Hparts.
      destruct He as [-> | [Hkept_e _]]; simpl.
      + exists ("" :: parts). split; [reflexivity | now constructor].
      + rewrite (kept_not_nullish Hkept_e).
        destruct Hkept_e as (s & Hs & Hkept_s). rewrite Hs. simpl.
        exists (s :: parts). split; [reflexivity | now constructor]. }
  destruct Hparts as (parts & Hparts & Hkept).
  exists (String.concat "," parts). simpl. rewrite Hparts. simpl.
  split; [reflexivity | now apply concat_not_removable].
Qed.

Lemma array_fixed (elements : list value) :
  Forall (fun e => e = VNull \/ settled e) elements -> fixed (VArray elements).
Proof.
  intros Helements.
  assert (Hparts : exists parts,
             sequence (map visit elements) = Normal parts
             /\ map (@InternalizeJSON num)
                    (map (fun part => match part with
                                      | Some j => j
                                      | None => JNull
                                      end) parts)
                = elements).
  { induction Helements as [ | e elements He _ IH]; simpl.
    - exists []. split; reflexivity.
    - destruct IH as (parts & Hparts & Hback). rewrite Hparts.
      destruct He as [-> | [Hkept (j & Hj & Hfixed)]].
      + exists (None :: parts). simpl. split; [reflexivity | now rewrite Hback].
      + rewrite (visit_kept Hkept). fold replacer. rewrite Hj. simpl.
        exists (Some j :: parts). simpl. split; [reflexivity | ].
        now rewrite Hfixed, Hback. }
  destruct Hparts as (parts & Hparts & Hback).
  eexists. rewrite Serialize_array, Hparts. simpl. split; [reflexivity | ].
  simpl. now rewrite Hback.
Qed.

Lemma select_written (members : list (string * json)) :
  flat_map (fun m : string * option json =>
              match snd m with
              | Some j => [(fst m, j)]
              | None => []
              end)
           (map (fun e => (fst e, Some (snd e))) members)
  = members.
Proof.
  induction members as [ | [k j] members IH]; simpl; [reflexivity | ].
  now rewrite IH.
Qed.

(** An object whose properties are distinct, in the order of enumeration
    and settled, is given back as it is. *)
Lemma object_fixed (props : list (string * value)) :
  StronglySorted key_le (map fst props) ->
  NoDup (map fst props) ->
  Forall (fun p => settled (snd p)) props ->
  fixed (VObject props).
Proof.
  intros Hsorted Hdistinct Hprops.
  assert (Hparts : exists members : list (string * json),
             sequence (map (fun p => part <- visit (snd p) ;;
                                     Normal (fst p, part)) props)
             = Normal (map (fun e => (fst e, Some (snd e))) members)
             /\ map (fun m => (fst m, InternalizeJSON (snd m))) members = props).
  { clear Hsorted Hdistinct.
    induction Hprops as [ | [k v] props [Hkept (j & Hj & Hfixed)] _ IH]; simpl.
    - exists []. split; reflexivity.
    - destruct IH as (members & Hparts & Hback). rewrite Hparts.
      simpl in *. rewrite (visit_kept Hkept). fold replacer. rewrite Hj. simpl.
      exists ((k, j) :: members). simpl. split; [reflexivity | ].
      now rewrite Hfixed, Hback. }
  destruct Hparts as (members & Hparts & Hback).
  exists (JObject members). rewrite Serialize_object.
  rewrite (EnumerableOwnProperties_ordered _ Hsorted), Hparts. simpl.
  rewrite select_written. split; [reflexivity | ].
  rewrite Hback. f_equal. now apply (create_all_distinct props []).
Qed.

(** The members written for an object: each comes from a property that is
    kept, and their keys are in the order of the properties. *)
Lemma members_written (props : list (string * value))
    (parts : list (string * option json)) :
  Forall2 (fun p part => (part' <- visit (snd p) ;; Normal (fst p, part'))
                         = Normal part) props parts ->
  forall m,
    In m (flat_map (fun m : string * option json =>
                      match snd m with
                      | Some j => [(fst m, j)]
                      | None => []
                      end) parts) ->
    exists v, In (fst m, v) props /\ visit v = Normal (Some (snd m)).
Proof.
  induction 1 as [ | [k v] part props parts Hpart _ IH]; simpl; [contradiction | ].
  intros m Hm. rewrite in_app_iff in Hm. destruct Hm as [Hm | Hm].
  - simpl in Hpart.
    destruct (visit v) as [part' | e] eqn:Hv; simpl in Hpart; [ | discriminate].
    injection Hpart as <-. simpl in Hm.
    destruct part' as [j | ]; [ | contradiction].
    destruct Hm as [<- | []]. simpl. exists v. split; [now left | exact Hv].
  - destruct (IH m Hm) as (v' & Hin & Hv'). exists v'. split; [now right | exact Hv'].
Qed.

Lemma members_sorted (props : list (string * value))
    (parts : list (string * option json)) :
  Forall2 (fun p part => (part' <- visit (snd p) ;; Normal (fst p, part'))
                         = Normal part) props parts ->
  StronglySorted key_le (map fst props) ->
  StronglySorted key_le
    (map fst (flat_map (fun m : string * option json =>
                          match snd m with
                          | Some j => [(fst m, j)]
                          | None => []
                          end) parts)).
Proof.
  intros Hparts. pose proof (members_written Hparts) as Hwritten.
  induction Hparts as [ | [k v] part props parts Hpart Hparts IH]; simpl;
    [constructor | ].
  intros Hsorted. inversion Hsorted as [ | ? ? Hrest Hfirst]; subst.
  assert (Htail : StronglySorted key_le
                    (map fst (flat_map (fun m : string * option json =>
                                          match snd m with
                                          | Some j => [(fst m, j)]
                                          | None => []
                                          end) parts))).
  { apply IH; [ | exact Hrest]. exact (members_written Hparts). }
  simpl in Hpart.
  destruct (visit v) as [part' | e]; simpl in Hpart; [ | discriminate].
  injection Hpart as <-. simpl. destruct part' as [j | ]; simpl; [ | exact Htail].
  constructor; [exact Htail | ].
  rewrite Forall_forall in *. intros key Hkey. apply Hfirst.
  apply in_map_iff in Hkey. destruct Hkey as (m & <- & Hm).
  destruct (members_written Hparts m Hm) as (v' & Hin & _).
  apply in_map_iff. exists (fst m, v'). split; [reflexivity | exact Hin].
Qed.

(** What is written for a kept value with finite numbers reads back as a
    settled value. *)
Lemma round_trip_settled (v : value) :
  finite_numbers v = true ->
  kept v ->
  forall j, Serialize v = Normal (Some j) -> settled (InternalizeJSON j).
Proof.
  induction v as [ | | b | n | s | elements IH | props IH]
    using value_induction; intros Hfinite Hkept j Hj.
  - discriminate Hj.
  - destruct Hkept as (s & Hs & Hkept). injection Hs as <-. discriminate Hkept.
  - injection Hj as <-. split; [exact Hkept | ]. eexists. split; reflexivity.
  - destruct n as [n | | negative]; try discriminate Hfinite.
    injection Hj as <-. split; [exact Hkept | ]. eexists. split; reflexivity.
  - injection Hj as <-. split; [exact Hkept | ]. eexists. split; reflexivity.
  - rewrite Serialize_array in Hj.
    destruct (sequence (map visit elements)) as [parts | e] eqn:Hparts;
      simpl in Hj; [ | discriminate].
    injection Hj as <-. apply sequence_map_Normal in Hparts.
    simpl in Hfinite. rewrite forallb_forall in Hfinite.
    rewrite Forall_forall in IH.
    assert (Helements :
              Forall (fun e => e = VNull \/ settled e)
                     (map (@InternalizeJSON num)
                          (map (fun part => match part with
                                            | Some j => j
                                            | None => JNull
                                            end) parts))).
    { clear Hkept. induction Hparts as [ | e part elements parts Hpart _ IHparts];
        simpl; constructor.
      - destruct part as [j | ]; [ | now left]. right.
        apply visit_written in Hpart. destruct Hpart as [Hkept Hj].
        apply (IH e); [now left | apply Hfinite; now left | exact Hkept | exact Hj].
      - apply IHparts; intros e' He'; [apply IH | apply Hfinite]; now right. }
    simpl. split; [now apply array_kept | now apply array_fixed].
  - rewrite Serialize_object in Hj.
    destruct (sequence (map (fun p => part <- visit (snd p) ;; Normal (fst p, part))
                            (EnumerableOwnProperties props)))
      as [parts | e] eqn:Hparts; simpl in Hj; [ | discriminate].
    injection Hj as <-. apply sequence_map_Normal in Hparts.
    simpl in Hfinite. rewrite forallb_forall in Hfinite.
    rewrite Forall_forall in IH.
    set (members := flat_map (fun m : string * option json =>
                                match snd m with
                                | Some j => [(fst m, j)]
                                | None => []
                                end) parts) in *.
    set (created := map (fun m : string * json => (fst m, InternalizeJSON (snd m)))
                        members).
    assert (Hkeys : map fst created = map fst members)
      by (unfold created; rewrite map_map; reflexivity).
    assert (Hsettled : Forall (fun p => settled (snd p)) created).
    { rewrite Forall_forall. intros p Hp. apply in_map_iff in Hp.
      destruct Hp as (m & <- & Hm). simpl.
      destruct (members_written Hparts m Hm) as (v & Hv & Hwritten).
      apply (proj1 (EnumerableOwnProperties_In _ _)) in Hv.
      apply visit_written in Hwritten. destruct Hwritten as [Hkept_v Hj].
      apply (IH _ Hv); [apply (Hfinite _ Hv) | exact Hkept_v | exact Hj]. }
    assert (Hsorted : StronglySorted key_le (map fst created)).
    { rewrite Hkeys. apply (members_sorted Hparts).
      apply EnumerableOwnProperties_sorted. }
    simpl. fold members. fold created. split.
    + exists "[object Object]". split; [ | reflexivity]. simpl.
      destruct (has_own "toString" (create_all created [])) eqn:Hown;
        [ | reflexivity].
      exfalso. apply has_own_In, in_map_iff in Hown.
      destruct Hown as (p & Hkey & Hp).
      apply create_all_In in Hp. destruct Hp as [[] | Hp].
      apply (in_map fst) in Hp. rewrite Hkey, Hkeys in Hp.
      apply in_map_iff in Hp. destruct Hp as (m & Hm_key & Hm).
      destruct (members_written Hparts m Hm) as (v & Hv & _).
      apply (proj1 (EnumerableOwnProperties_In _ _)) in Hv. rewrite Hm_key in Hv.
      destruct Hkept as (s & Hs & _). simpl in Hs.
      assert (Hown : has_own "toString" props = true).
      { apply has_own_In, in_map_iff. exists ("toString", v). now split. }
      rewrite Hown in Hs. discriminate Hs.
    + apply object_fixed.
      * now apply create_all_sorted.
      * apply create_all_NoDup. constructor.
      * rewrite Forall_forall in *. intros p Hp.
        apply create_all_In in Hp. destruct Hp as [[] | Hp]. now apply Hsettled.
Qed.

Lemma Forall2_nth_error (B C : Type) (R : B -> C -> Prop)
    (l : list B) (l' : list C) :
  Forall2 R l l' ->
  forall i c, nth_error l' i = Some c ->
              exists b, nth_error l i = Some b /\ R b c.
Proof.
  induction 1 as [ | b c' l l' Hhead _ IH]; intros i c Hc.
  - destruct i; discriminate.
  - destruct i as [ | i]; simpl in *.
    + injection Hc as <-. eauto.
    + eauto.
Qed.

Lemma ends_with_key_cons (st : step) (rest : list step) :
  rest <> [] -> ends_with_key (st :: rest) = ends_with_key rest.
Proof.
  destruct rest; [contradiction | ]. now destruct st.
Qed.

(** Whatever is found in the value read back was found at the same place in
    the value written, and a member that is found was kept by the
    replacer. *)
Lemma written_fields (path : list step) :
  forall (x : value) (j : json) (w' : value),
    Serialize x = Normal (Some j) ->
    field_at path (InternalizeJSON j) w' ->
    exists w, field_at path x w /\ (ends_with_key path = true -> kept w).
Proof.
  induction path as [ | st rest IH]; intros x j w' Hj Hfield.
  - exists x. split; [constructor | discriminate].
  - inversion Hfield as [ | key props' u path' w0 Hin Hrest Hpath Hshape
                          | i items u path' w0 Hnth Hrest Hpath Hshape]; subst.
    + destruct x as [ | | b | n | s | elements | props];
        try (simpl in Hj; injection Hj as <-; discriminate Hshape);
        try discriminate Hj.
      * destruct n; simpl in Hj; injection Hj as <-; discriminate Hshape.
      * rewrite Serialize_array in Hj.
        destruct (sequence (map visit elements)); simpl in Hj; [ | discriminate].
        injection Hj as <-. discriminate Hshape.
      * rewrite Serialize_object in Hj.
        destruct (sequence (map (fun p => part <- visit (snd p) ;;
                                          Normal (fst p, part))
                                (EnumerableOwnProperties props)))
          as [parts | e] eqn:Hparts; simpl in Hj; [ | discriminate].
        injection Hj as <-. apply sequence_map_Normal in Hparts.
        simpl in Hshape. injection Hshape as ->.
        apply create_all_In in Hin. destruct Hin as [[] | Hin].
        apply in_map_iff in Hin. destruct Hin as (m & Hm & Hin).
        injection Hm as <- <-.
        destruct (members_written Hparts m Hin) as (v & Hv & Hwritten).
        apply (proj1 (EnumerableOwnProperties_In _ _)) in Hv.
        apply visit_written in Hwritten. destruct Hwritten as [Hkept Hj].
        destruct (IH v (snd m) w' Hj Hrest) as (w & Hw & Hends).
        exists w. split; [now apply field_member with (u := v) | ].
        destruct rest as [ | st rest].
        -- intros _. inversion Hw; subst. exact Hkept.
        -- rewrite ends_with_key_cons by discriminate. exact Hends.
    + destruct x as [ | | b | n | s | elements | props];
        try (simpl in Hj; injection Hj as <-; discriminate Hshape);
        try discriminate Hj.
      * destruct n; simpl in Hj; injection Hj as <-; discriminate Hshape.
      * rewrite Serialize_array in Hj.
        destruct (sequence (map visit elements)) as [parts | e] eqn:Hparts;
          simpl in Hj; [ | discriminate].
        injection Hj as <-. apply sequence_map_Normal in Hparts.
        simpl in Hshape. injection Hshape as ->.
        rewrite !nth_error_map in Hnth.
        destruct (nth_error parts i) as [part | ] eqn:Hpart; [ | discriminate].
        simpl in Hnth. injection Hnth as <-.
        destruct (Forall2_nth_error Hparts i Hpart) as (e & He & Hvisit).
        destruct part as [j | ].
        -- apply visit_written in Hvisit. destruct Hvisit as [Hkept Hj].
           destruct (IH e j w' Hj Hrest) as (w & Hw & Hends).
           exists w. split; [now apply field_element with (u := e) | ].
           destruct rest as [ | st rest]; [discriminate | ].
           rewrite ends_with_key_cons by discriminate. exact Hends.
        -- simpl in Hrest. inversion Hrest; subst.
           exists e. split; [ | discriminate].
           apply field_element with (u := e); [exact He | constructor].
      * rewrite Serialize_object in Hj.
        destruct (sequence (map (fun p => part <- visit (snd p) ;;
                                          Normal (fst p, part))
                                (EnumerableOwnProperties props)));
          simpl in Hj; [ | discriminate].
        injection Hj as <-. discriminate Hshape.
Qed.

(** Every member of an object of the normalised value, at any depth, is a
    member at the same place of the input, and its value there has a
    string form other than "null" and "undefined": the members with such a
    string form are gone. *)
Theorem replaceNullsWithUndefined_members :
  forall (x y : value) (path : list step) (key : string) (w' : value),
    replaceNullsWithUndefined x = Normal y ->
    field_at (path ++ [Key key]) y w' ->
    exists w s,
      field_at (path ++ [Key key]) x w
      /\ ToString w = Normal s /\ s <> "null" /\ s <> "undefined".
Proof.
  intros x y path key w' Hy Hfield.
  rewrite replaceNullsWithUndefined_visit in Hy.
  destruct (visit x) as [[j | ] | e] eqn:Hx; simpl in Hy; try discriminate.
  injection Hy as <-. apply visit_written in Hx. destruct Hx as [_ Hj].
  destruct (@written_fields (path ++ [Key key]) x j w' Hj Hfield)
    as (w & Hw & Hends).
  assert (Hkey : ends_with_key (path ++ [Key key]) = true).
  { clear. induction path as [ | st path IH]; [reflexivity | ].
    simpl app. rewrite ends_with_key_cons; [exact IH | now destruct path]. }
  destruct (Hends Hkey) as (s & Hs & Hkept).
  exists w, s. split; [exact Hw | ]. split; [exact Hs | ].
  unfold removable in Hkept. apply orb_false_iff in Hkept.
  destruct Hkept as [Hnull Hundefined].
  split; now apply String.eqb_neq.
Qed.

Lemma distinct_lookup (props : list (string * value)) (key : string)
    (u1 u2 : value) :
  distinct (map fst props) = true ->
  In (key, u1) props -> In (key, u2) props -> u1 = u2.
Proof.
  induction props as [ | [k u] props IH]; simpl; [contradiction | ].
  intros Hdistinct H1 H2. apply andb_true_iff in Hdistinct.
  destruct Hdistinct as [Hfresh Hdistinct]. apply negb_true_iff in Hfresh.
  assert (Hnot : forall w, ~ In (k, w) props).
  { intros w Hw. apply (in_map fst) in Hw. simpl in Hw.
    assert (Hsome : existsb (String.eqb k) (map fst props) = true).
    { apply existsb_exists. exists k. split; [exact Hw | apply String.eqb_refl]. }
    congruence. }
  destruct H1 as [H1 | H1], H2 as [H2 | H2].
  - congruence.
  - injection H1 as -> ->. now destruct (Hnot u2).
  - injection H2 as -> ->. now destruct (Hnot u1).
  - now apply IH.
Qed.

(** With one property per key, a path leads to one place. *)
Lemma field_at_functional (path : list step) (x w1 w2 : value) :
  distinct_keys x = true ->
  field_at path x w1 -> field_at path x w2 -> w1 = w2.
Proof.
  intros Hdistinct H1. revert w2.
  induction H1 as [v | key props u path w Hin Hpath IH
                   | i elements u path w Hnth Hpath IH]; intros w2 H2;
    inversion H2 as [ | ? ? u2 ? ? Hin2 Hpath2 | ? ? u2 ? ? Hnth2 Hpath2]; subst.
  - reflexivity.
  - simpl in Hdistinct. apply andb_true_iff in Hdistinct.
    destruct Hdistinct as [Hkeys Hmembers].
    assert (u2 = u) by exact (@distinct_lookup props key u2 u Hkeys Hin2 Hin).
    subst u2.
    apply IH; [ | exact Hpath2].
    rewrite forallb_forall in Hmembers. exact (Hmembers _ Hin).
  - assert (u2 = u) by congruence. subst u2.
    apply IH; [ | exact Hpath2].
    simpl in Hdistinct. rewrite forallb_forall in Hdistinct.
    apply Hdistinct. now apply nth_error_In with (n := i).
Qed.

(** X19: when the normaliser returns, a member of an object of the input,
    at any depth, whose string form is "null" or "undefined" is not in the
    output. *)
Theorem removable_members_absent :
  forall (x y : value) (path : list step) (key : string) (w : value)
         (s : string),
    replaceNullsWithUndefined x = Normal y ->
    distinct_keys x = true ->
    field_at (path ++ [Key key]) x w ->
    ToString w = Normal s ->
    s = "null" \/ s = "undefined" ->
    forall w', ~ field_at (path ++ [Key key]) y w'.
Proof.
  intros x y path key w s Hy Hdistinct Hw Hs Hremovable w' Hw'.
  destruct (@replaceNullsWithUndefined_members x y path key w' Hy Hw')
    as (w0 & s0 & Hw0 & Hs0 & Hnull & Hundefined).
  assert (w0 = w)
    by exact (@field_at_functional (path ++ [Key key]) x w0 w Hdistinct Hw0 Hw).
  subst w0.
  assert (s0 = s) by congruence. subst s0.
  destruct Hremovable; contradiction.
Qed.

(** C6, as the code has it: an input whose own string form is "null" or
    "undefined" makes [JSON.stringify] return [undefined], and the
    normaliser throws the [SyntaxError] of [JSON.parse]. *)
Theorem removable_input_rejected :
  forall (x : value) (s : string),
    ToString x = Normal s ->
    s = "null" \/ s = "undefined" ->
    JSON_stringify x replacer = Normal None
    /\ replaceNullsWithUndefined x = Throw SyntaxError.
Proof.
  intros x s Hs Hremovable.
  assert (Hvisit : visit x = Normal None).
  { unfold visit. rewrite Hs. simpl.
    destruct Hremovable as [-> | ->]; reflexivity. }
  split.
  - unfold JSON_stringify. now rewrite SerializeJSONProperty_visit.
  - now rewrite replaceNullsWithUndefined_visit, Hvisit.
Qed.

(** *** Objects that cannot be converted to a string *)

Lemma sequence_Throw (E B : Type) (l : list (completion E B)) (e : E) :
  sequence l = Throw e -> In (Throw e) l.
Proof.
  induction l as [ | c l IH]; simpl; [discriminate | ].
  destruct c as [b | e']; simpl.
  - destruct (sequence l) as [r | e'']; simpl; [discriminate | ].
    intros H. injection H as ->. right. now apply IH.
  - intros H. injection H as ->. now left.
Qed.

Lemma sequence_throws (E B : Type) (l : list (completion E B)) (e : E) :
  In (Throw e) l ->
  (forall e', In (Throw e') l -> e' = e) ->
  sequence l = Throw e.
Proof.
  induction l as [ | c l IH]; simpl; [contradiction | ].
  intros Hin Honly. destruct c as [b | e']; simpl.
  - destruct Hin as [Hin | Hin]; [discriminate | ].
    rewrite IH; [reflexivity | exact Hin | ]. intros e' He'. apply Honly. now right.
  - f_equal. apply Honly. now left.
Qed.

Lemma ToString_throws (v : value) (e : native_error) :
  ToString v = Throw e -> e = TypeError.
Proof.
  induction v as [ | | b | n | s | elements IH | props IH]
    using value_induction; simpl; try discriminate.
  - destruct b; discriminate.
  - destruct (sequence _) as [parts | e'] eqn:Hparts; simpl; [discriminate | ].
    intros H. injection H as ->. apply sequence_Throw, in_map_iff in Hparts.
    destruct Hparts as (element & Helement & Hin).
    rewrite Forall_forall in IH.
    destruct (is_nullish element); [discriminate | ]. now apply (IH element).
  - destruct (has_own "toString" props); [ | discriminate].
    intros H. now injection H as <-.
Qed.

Lemma visit_throws_by_parts (v : value) (e : native_error) :
  (forall e', Serialize v = Throw e' -> e' = TypeError) ->
  visit v = Throw e -> e = TypeError.
Proof.
  intros Hserialize. unfold visit.
  destruct (ToString v) as [s | e'] eqn:Hs; simpl.
  - destruct (removable s); [discriminate | apply Hserialize].
  - intros H. injection H as <-. exact (ToString_throws _ Hs).
Qed.

Lemma Serialize_throws (v : value) (e : native_error) :
  Serialize v = Throw e -> e = TypeError.
Proof.
  revert e. induction v as [ | | b | n | s | elements IH | props IH]
    using value_induction; intros e; try discriminate.
  - destruct n; discriminate.
  - rewrite Serialize_array.
    destruct (sequence (map visit elements)) as [parts | e'] eqn:Hparts; simpl;
      [discriminate | ].
    intros H. injection H as ->. apply sequence_Throw, in_map_iff in Hparts.
    destruct Hparts as (element & Helement & Hin).
    rewrite Forall_forall in IH.
    exact (visit_throws_by_parts _ (IH element Hin) Helement).
  - rewrite Serialize_object.
    destruct (sequence _) as [parts | e'] eqn:Hparts; simpl; [discriminate | ].
    intros H. injection H as ->. apply sequence_Throw, in_map_iff in Hparts.
    destruct Hparts as (p & Hp & Hin).
    apply (proj1 (EnumerableOwnProperties_In _ _)) in Hin.
    rewrite Forall_forall in IH.
    destruct (visit (snd p)) as [part | e'] eqn:Hvisit; simpl in Hp; [discriminate | ].
    injection Hp as ->.
    exact (visit_throws_by_parts _ (IH p Hin) Hvisit).
Qed.

Lemma visit_throws (v : value) (e : native_error) :
  visit v = Throw e -> e = TypeError.
Proof.
  apply visit_throws_by_parts. intros e'. apply Serialize_throws.
Qed.

Lemma length_append (a b : string) :
  String.length (a ++ b) = String.length a + String.length b.
Proof.
  induction a as [ | c a IH]; simpl; [reflexivity | now rewrite IH].
Qed.

Lemma concat_length (parts : list string) (part : string) :
  In part parts ->
  String.length part <= String.length (String.concat "," parts).
Proof.
  induction parts as [ | s parts IH]; [contradiction | ].
  intros Hin. destruct parts as [ | s' parts].
  - destruct Hin as [<- | []]. simpl. lia.
  - change (String.concat "," (s :: s' :: parts))
      with (s ++ "," ++ String.concat "," (s' :: parts))%string.
    rewrite !length_append. destruct Hin as [<- | Hin]; [lia | ].
    specialize (IH Hin). lia.
Qed.

(** The string form of a value in which an object is found has at least the
    length of ["[object Object]"]. *)
Lemma ToString_with_object (path : list step) (x w : value) :
  field_at path x w ->
  forall props, w = VObject props ->
  forall s, ToString x = Normal s -> 15 <= String.length s.
Proof.
  induction 1 as [v | key props' u path w Hin Hpath IH
                  | i elements u path w Hnth Hpath IH]; intros props Hw s Hs.
  - subst v. simpl in Hs.
    destruct (has_own "toString" props); [discriminate | ].
    injection Hs as <-. simpl. lia.
  - simpl in Hs. destruct (has_own "toString" props'); [discriminate | ].
    injection Hs as <-. simpl. lia.
  - simpl in Hs.
    destruct (sequence _) as [parts | e] eqn:Hparts; simpl in Hs; [ | discriminate].
    injection Hs as <-. apply sequence_map_Normal in Hparts.
    assert (Hpart : exists part, In part parts /\ ToString u = Normal part).
    { clear IH. revert i Hnth.
      induction Hparts as [ | e part elements parts Hpart _ IHparts];
        intros i Hnth; [destruct i; discriminate | ].
      destruct i as [ | i]; simpl in Hnth.
      - injection Hnth as ->. exists part. split; [now left | ].
        assert (Hu : is_nullish u = false).
        { inversion Hpath; subst; reflexivity. }
        now rewrite Hu in Hpart.
      - destruct (IHparts i Hnth) as (part' & Hin' & Hu). exists part'.
        split; [now right | exact Hu]. }
    destruct Hpart as (part & Hin & Hu).
    specialize (IH props Hw part Hu).
    pose proof (concat_length parts part Hin). lia.
Qed.

(** Visiting a value in which an object hides [toString] throws. *)
Lemma visit_hidden_toString (path : list step) (x : value)
    (props : list (string * value)) :
  field_at path x (VObject props) ->
  has_own "toString" props = true ->
  visit x = Throw TypeError.
Proof.
  intros Hfield Hown.
  remember (VObject props) as w eqn:Hw.
  induction Hfield as [v | key props' u path w Hin Hpath IH
                       | i elements u path w Hnth Hpath IH].
  - subst v. unfold visit. simpl. now rewrite Hown.
  - specialize (IH Hw).
    destruct (has_own "toString" props') eqn:Hown';
      [unfold visit; simpl; now rewrite Hown' | ].
    rewrite visit_kept
      by (exists "[object Object]"; simpl; rewrite Hown'; split; reflexivity).
    rewrite Serialize_object.
    rewrite (@sequence_throws _ _ _ TypeError); [reflexivity | | ].
    + apply in_map_iff. exists (key, u). simpl. rewrite IH. split; [reflexivity | ].
      now apply EnumerableOwnProperties_In.
    + intros e He. apply in_map_iff in He. destruct He as (p & Hp & _).
      destruct (visit (snd p)) as [part | e'] eqn:Hp'; simpl in Hp; [discriminate | ].
      injection Hp as ->. exact (visit_throws _ Hp').
  - specialize (IH Hw).
    assert (Hlong : forall s, ToString (VArray elements) = Normal s ->
                              removable s = false).
    { intros s Hs.
      assert (Hfield : field_at (Index i :: path) (VArray elements) w)
        by (now apply field_element with (u := u)).
      pose proof (ToString_with_object Hfield Hw Hs) as Hlength.
      unfold removable. apply orb_false_iff.
      split; apply String.eqb_neq; intros ->; simpl in Hlength; lia. }
    destruct (ToString (VArray elements)) as [s | e] eqn:Hs.
    + rewrite visit_kept by (exists s; split; [exact Hs | now apply Hlong]).
      rewrite Serialize_array.
      rewrite (@sequence_throws _ _ _ TypeError); [reflexivity | | ].
      * apply in_map_iff. exists u. split; [exact IH | ].
        now apply nth_error_In with (n := i).
      * intros e He. apply in_map_iff in He. destruct He as (el & Hel & _).
        exact (visit_throws _ Hel).
    + unfold visit. rewrite Hs. simpl. f_equal. exact (ToString_throws _ Hs).
Qed.

(** X4: an object with an own property named [toString], anywhere in the
    input, makes the normaliser throw a [TypeError]: its string form cannot
    be taken. *)
Theorem toString_property_throws :
  forall (path : list step) (x : value) (props : list (string * value)),
    field_at path x (VObject props) ->
    has_own "toString" props = true ->
    replaceNullsWithUndefined x = Throw TypeError.
Proof.
  intros path x props Hfield Hown.
  rewrite replaceNullsWithUndefined_visit.
  now rewrite (visit_hidden_toString Hfield Hown).
Qed.

(** *** The outcomes of the normaliser *)

Local Notation hides_toString := (@hides_toString num).

Lemma hides_toString_element (elements : list value) (element : value) :
  In element elements -> hides_toString element ->
  hides_toString (VArray elements).
Proof.
  intros Hin (path & props & Hfield & Hown).
  destruct (In_nth_error _ _ Hin) as (i & Hi).
  exists (Index i :: path), props. split; [ | exact Hown].
  now apply field_element with (u := element).
Qed.

Lemma hides_toString_member (members : list (string * value))
    (p : string * value) :
  In p members -> hides_toString (snd p) -> hides_toString (VObject members).
Proof.
  intros Hin (path & props & Hfield & Hown). destruct p as [key u].
  exists (Key key :: path), props. split; [ | exact Hown].
  now apply field_member with (u := u).
Qed.

(** [String(value)] only fails on an object that hides [toString]. *)
Lemma ToString_throws_hidden (v : value) (e : native_error) :
  ToString v = Throw e -> hides_toString v.
Proof.
  induction v as [ | | b | n | s | elements IH | props IH]
    using value_induction; simpl; try discriminate.
  - destruct b; discriminate.
  - destruct (sequence _) as [parts | e'] eqn:Hparts; simpl; [discriminate | ].
    intros H. injection H as ->. apply sequence_Throw, in_map_iff in Hparts.
    destruct Hparts as (element & Helement & Hin).
    rewrite Forall_forall in IH.
    destruct (is_nullish element); [discriminate | ].
    apply hides_toString_element with (element := element); [exact Hin | ].
    exact (IH element Hin Helement).
  - destruct (has_own "toString" props) eqn:Hown; [ | discriminate].
    intros _. exists [], props. split; [constructor | exact Hown].
Qed.

Lemma visit_throws_hidden_by_parts (v : value) (e : native_error) :
  (forall e', Serialize v = Throw e' -> hides_toString v) ->
  visit v = Throw e -> hides_toString v.
Proof.
  intros Hserialize. unfold visit.
  destruct (ToString v) as [s | e'] eqn:Hs; simpl.
  - destruct (removable s); [discriminate | apply Hserialize].
  - intros _. exact (ToString_throws_hidden _ Hs).
Qed.

Lemma Serialize_throws_hidden (v : value) (e : native_error) :
  Serialize v = Throw e -> hides_toString v.
Proof.
  revert e. induction v as [ | | b | n | s | elements IH | props IH]
    using value_induction; intros e; try discriminate.
  - destruct n; discriminate.
  - rewrite Serialize_array.
    destruct (sequence (map visit elements)) as [parts | e'] eqn:Hparts; simpl;
      [discriminate | ].
    intros _. apply sequence_Throw, in_map_iff in Hparts.
    destruct Hparts as (element & Helement & Hin).
    rewrite Forall_forall in IH.
    apply hides_toString_element with (element := element); [exact Hin | ].
    apply visit_throws_hidden_by_parts with (e := e');
      [exact (IH element Hin) | exact Helement].
  - rewrite Serialize_object.
    destruct (sequence _) as [parts | e'] eqn:Hparts; simpl; [discriminate | ].
    intros _. apply sequence_Throw, in_map_iff in Hparts.
    destruct Hparts as (p & Hp & Hin).
    apply (proj1 (EnumerableOwnProperties_In _ _)) in Hin.
    rewrite Forall_forall in IH.
    destruct (visit (snd p)) as [part | e''] eqn:Hvisit; simpl in Hp; [discriminate | ].
    apply hides_toString_member with (p := p); [exact Hin | ].
    apply visit_throws_hidden_by_parts with (e := e'');
      [exact (IH p Hin) | exact Hvisit].
Qed.

Lemma visit_throws_hidden (v : value) (e : native_error) :
  visit v = Throw e -> hides_toString v.
Proof.
  apply visit_throws_hidden_by_parts. intros e'. apply Serialize_throws_hidden.
Qed.

(** Only [undefined] is written as nothing once the replacer has kept it. *)
Lemma Serialize_nothing (v : value) :
  Serialize v = Normal None -> v = VUndefined.
Proof.
  destruct v as [ | | b | n | s | elements | props]; try discriminate;
    [reflexivity | destruct n; discriminate | | ].
  - rewrite Serialize_array.
    destruct (sequence (map visit elements)); discriminate.
  - rewrite Serialize_object. destruct (sequence _); discriminate.
Qed.

Lemma visit_nothing (v : value) :
  visit v = Normal None <-> exists s, ToString v = Normal s /\ removable s = true.
Proof.
  unfold visit. split.
  - destruct (ToString v) as [s | e] eqn:Hs; simpl; [ | discriminate].
    destruct (removable s) eqn:Hremovable; [eauto | ].
    intros Hnothing. apply Serialize_nothing in Hnothing. subst v.
    injection Hs as <-. discriminate Hremovable.
  - intros (s & -> & Hremovable). simpl. now rewrite Hremovable.
Qed.

(** The value [visit] writes is the normal form of the node, and a node that
    is written as nothing has none. *)
Lemma visit_normal_form (v : value) (part : option json) :
  visit v = Normal part ->
  replaceNullsWithUndefined v
  = match part with
    | Some j => Normal (InternalizeJSON j)
    | None => Throw SyntaxError
    end.
Proof.
  intros Hpart. rewrite replaceNullsWithUndefined_visit, Hpart.
  now destruct part.
Qed.

(** X5: the three outcomes of the normaliser. It throws a [TypeError] when
    an object hides [toString] somewhere in the input; otherwise it throws a
    [SyntaxError] when the string form of the input is "null" or
    "undefined"; otherwise it returns. *)
Theorem replaceNullsWithUndefined_outcome :
  forall x : value,
    (hides_toString x /\ replaceNullsWithUndefined x = Throw TypeError)
    \/ (~ hides_toString x
        /\ (exists s, ToString x = Normal s /\ removable s = true)
        /\ replaceNullsWithUndefined x = Throw SyntaxError)
    \/ (~ hides_toString x
        /\ (exists s, ToString x = Normal s /\ removable s = false)
        /\ exists y, replaceNullsWithUndefined x = Normal y).
Proof.
  intros x.
  assert (Hhidden : forall part, visit x = Normal part -> ~ hides_toString x).
  { intros part Hpart (path & props & Hfield & Hown).
    rewrite (visit_hidden_toString Hfield Hown) in Hpart. discriminate Hpart. }
  destruct (visit x) as [[j | ] | e] eqn:Hx.
  - right. right. split; [exact (Hhidden _ eq_refl) | ].
    rewrite (visit_normal_form x Hx).
    apply visit_written in Hx. destruct Hx as [Hkept _].
    split; [exact Hkept | eauto].
  - right. left. split; [exact (Hhidden _ eq_refl) | ].
    rewrite (visit_normal_form x Hx). split; [ | reflexivity].
    now apply visit_nothing.
  - left. split; [exact (visit_throws_hidden _ Hx) | ].
    rewrite replaceNullsWithUndefined_visit, Hx. simpl.
    f_equal. exact (visit_throws _ Hx).
Qed.

(** *** The normal form, part by part *)

Lemma distinct_NoDup (keys : list string) :
  distinct keys = true <-> NoDup keys.
Proof.
  induction keys as [ | key keys IH]; simpl.
  - split; [constructor | reflexivity].
  - rewrite andb_true_iff, negb_true_iff, IH. split.
    + intros [Hfresh Hkeys]. constructor; [ | exact Hkeys].
      intros Hin.
      assert (Hsome : existsb (String.eqb key) keys = true).
      { apply existsb_exists. exists key. split; [exact Hin | apply String.eqb_refl]. }
      congruence.
    + intros Hnodup. inversion Hnodup as [ | ? ? Hfresh Hkeys]; subst.
      split; [ | exact Hkeys].
      destruct (existsb (String.eqb key) keys) eqn:Hsome; [ | reflexivity].
      apply existsb_exists in Hsome. destruct Hsome as (k & Hk & Heq).
      apply String.eqb_eq in Heq. now subst k.
Qed.

Lemma normalised_members_keys (l : list (string * value)) (key : string) :
  In key (map fst (flat_map (normalised_member replaceNullsWithUndefined) l)) ->
  In key (map fst l).
Proof.
  rewrite !in_map_iff. intros ([k w'] & Hkey & Hin). simpl in Hkey. subst k.
  apply in_flat_map in Hin. destruct Hin as (p & Hp & Hin).
  unfold normalised_member in Hin.
  destruct (replaceNullsWithUndefined (snd p)); [ | contradiction].
  destruct Hin as [Heq | []]. injection Heq as Hkey _.
  exists p. now split.
Qed.

Lemma normalised_members_NoDup (l : list (string * value)) :
  NoDup (map fst l) ->
  NoDup (map fst (flat_map (normalised_member replaceNullsWithUndefined) l)).
Proof.
  induction l as [ | p l IH]; simpl; intros Hnodup; [constructor | ].
  inversion Hnodup as [ | ? ? Hfresh Hrest]; subst.
  rewrite map_app. unfold normalised_member at 1.
  destruct (replaceNullsWithUndefined (snd p)); simpl; [ | now apply IH].
  constructor; [ | now apply IH].
  intros Hin. apply Hfresh. now apply normalised_members_keys.
Qed.

(** The members read back from what was written for the properties. *)
Lemma members_normal_forms (props : list (string * value))
    (parts : list (string * option json)) :
  Forall2 (fun p part => (part' <- visit (snd p) ;; Normal (fst p, part'))
                         = Normal part) props parts ->
  map (fun m : string * json => (fst m, InternalizeJSON (snd m)))
      (flat_map (fun m : string * option json =>
                   match snd m with
                   | Some j => [(fst m, j)]
                   | None => []
                   end) parts)
  = flat_map (normalised_member replaceNullsWithUndefined) props.
Proof.
  induction 1 as [ | [k v] part props parts Hpart _ IH]; simpl; [reflexivity | ].
  rewrite map_app, IH. f_equal. simpl in Hpart.
  destruct (visit v) as [part' | e] eqn:Hv; simpl in Hpart; [ | discriminate].
  injection Hpart as <-. unfold normalised_member. simpl.
  rewrite (visit_normal_form v Hv). now destruct part'.
Qed.

Lemma elements_normal_forms (elements : list value)
    (parts : list (option json)) :
  Forall2 (fun e part => visit e = Normal part) elements parts ->
  map (@InternalizeJSON num)
      (map (fun part => match part with
                        | Some j => j
                        | None => JNull
                        end) parts)
  = map (normalised_element replaceNullsWithUndefined) elements.
Proof.
  induction 1 as [ | e part elements parts Hpart _ IH]; simpl; [reflexivity | ].
  rewrite IH. f_equal. unfold normalised_element.
  rewrite (visit_normal_form e Hpart). now destruct part.
Qed.

(** X6: normalising an object normalises its members one by one, in the
    order of [Object.keys]: each member takes its own normal form, and a
    member that has none (its string form is "null" or "undefined") is left
    out. *)
Theorem replaceNullsWithUndefined_object :
  forall (props : list (string * value)) (y : value),
    replaceNullsWithUndefined (VObject props) = Normal y ->
    distinct (map fst props) = true ->
    y = VObject (flat_map (normalised_member replaceNullsWithUndefined)
                          (EnumerableOwnProperties props)).
Proof.
  intros props y Hy Hdistinct.
  rewrite replaceNullsWithUndefined_visit in Hy.
  destruct (visit (VObject props)) as [[j | ] | e] eqn:Hx; simpl in Hy;
    try discriminate.
  injection Hy as <-. apply visit_written in Hx. destruct Hx as [_ Hj].
  rewrite Serialize_object in Hj.
  destruct (sequence _) as [parts | e] eqn:Hparts; simpl in Hj; [ | discriminate].
  injection Hj as <-. apply sequence_map_Normal in Hparts.
  simpl. rewrite (members_normal_forms Hparts). f_equal.
  apply (create_all_distinct _ []). simpl.
  apply normalised_members_NoDup.
  eapply Permutation_NoDup.
  - symmetry. apply Permutation_map, EnumerableOwnProperties_perm.
  - now apply distinct_NoDup.
Qed.

(** X7: normalising an array normalises its elements one by one and keeps
    their number and their places: each element takes its own normal form,
    and an element that has none is [null]. *)
Theorem replaceNullsWithUndefined_array :
  forall (elements : list value) (y : value),
    replaceNullsWithUndefined (VArray elements) = Normal y ->
    y = VArray (map (normalised_element replaceNullsWithUndefined) elements).
Proof.
  intros elements y Hy.
  rewrite replaceNullsWithUndefined_visit in Hy.
  destruct (visit (VArray elements)) as [[j | ] | e] eqn:Hx; simpl in Hy;
    try discriminate.
  injection Hy as <-. apply visit_written in Hx. destruct Hx as [_ Hj].
  rewrite Serialize_array in Hj.
  destruct (sequence _) as [parts | e] eqn:Hparts; simpl in Hj; [ | discriminate].
  injection Hj as <-. apply sequence_map_Normal in Hparts.
  simpl. now rewrite (elements_normal_forms Hparts).
Qed.

(** *** What a normal form is made of *)

Lemma json_induction (P : json -> Prop) :
  P JNull ->
  (forall b, P (JBool b)) ->
  (forall n, P (JNumber n)) ->
  (forall s, P (JString s)) ->
  (forall elements, Forall P elements -> P (JArray elements)) ->
  (forall members, Forall (fun m => P (snd m)) members -> P (JObject members)) ->
  forall j, P j.
Proof.
  intros Hnull Hbool Hnumber Hstring Harray Hobject.
  fix IH 1. intros [ | b | n | s | elements | members].
  - exact Hnull.
  - apply Hbool.
  - apply Hnumber.
  - apply Hstring.
  - apply Harray. induction elements as [ | e elements IHl]; constructor.
    + apply IH.
    + exact IHl.
  - apply Hobject. induction members as [ | [k e] members IHl]; constructor.
    + apply IH.
    + exact IHl.
Qed.

Lemma InternalizeJSON_member (members : list (string * json))
    (p : string * value) :
  In p (create_all
          (map (fun m : string * json => (fst m, InternalizeJSON (snd m))) members)
          []) ->
  exists m, In m members /\ snd p = InternalizeJSON (snd m).
Proof.
  intros Hp. apply create_all_In in Hp. destruct Hp as [[] | Hp].
  apply in_map_iff in Hp. destruct Hp as (m & <- & Hm). now exists m.
Qed.

Lemma InternalizeJSON_finite (j : json) :
  finite_numbers (InternalizeJSON j) = true.
Proof.
  induction j as [ | b | n | s | elements IH | members IH]
    using json_induction; simpl; try reflexivity.
  - rewrite forallb_forall. intros v Hv. apply in_map_iff in Hv.
    destruct Hv as (e & <- & He). rewrite Forall_forall in IH. now apply IH.
  - rewrite forallb_forall. intros p Hp.
    destruct (InternalizeJSON_member _ _ Hp) as (m & Hm & ->).
    rewrite Forall_forall in IH. now apply (IH m).
Qed.

Lemma InternalizeJSON_distinct (j : json) :
  distinct_keys (InternalizeJSON j) = true.
Proof.
  induction j as [ | b | n | s | elements IH | members IH]
    using json_induction; simpl; try reflexivity.
  - rewrite forallb_forall. intros v Hv. apply in_map_iff in Hv.
    destruct Hv as (e & <- & He). rewrite Forall_forall in IH. now apply IH.
  - apply andb_true_iff. split.
    + apply distinct_NoDup, create_all_NoDup. constructor.
    + rewrite forallb_forall. intros p Hp.
      destruct (InternalizeJSON_member _ _ Hp) as (m & Hm & ->).
      rewrite Forall_forall in IH. now apply (IH m).
Qed.

Lemma InternalizeJSON_defined (j : json) :
  forall (path : list step) (w : value),
    field_at path (InternalizeJSON j) w -> is_undefined w = false.
Proof.
  induction j as [ | b | n | s | elements IH | members IH]
    using json_induction; intros path w Hfield;
    inversion Hfield as [ | key props u rest w0 Hin Hrest
                          | i items u rest w0 Hnth Hrest]; subst;
    try reflexivity.
  - rewrite nth_error_map in Hnth.
    destruct (nth_error elements i) as [e | ] eqn:He; [ | discriminate].
    injection Hnth as <-. rewrite Forall_forall in IH.
    exact (IH e (nth_error_In _ _ He) rest w Hrest).
  - destruct (InternalizeJSON_member _ _ Hin) as (m & Hm & Hu).
    simpl in Hu. subst u. rewrite Forall_forall in IH.
    exact (IH m Hm rest w Hrest).
Qed.

(** X8: what the normaliser returns is plain data: nothing in it is
    [undefined], every number in it is finite, and every object in it has
    one property per key. *)
Theorem replaceNullsWithUndefined_plain :
  forall x y : value,
    replaceNullsWithUndefined x = Normal y ->
    finite_numbers y = true
    /\ distinct_keys y = true
    /\ forall (path : list step) (w : value),
        field_at path y w -> is_undefined w = false.
Proof.
  intros x y Hy. unfold replaceNullsWithUndefined in Hy.
  destruct (JSON_stringify x replacer) as [[j | ] | e]; simpl in Hy;
    try discriminate.
  injection Hy as <-. split; [apply InternalizeJSON_finite | ].
  split; [apply InternalizeJSON_distinct | apply InternalizeJSON_defined].
Qed.


(** C5, as the code has it: on a value whose numbers are finite, as they
    are in any resource read from JSON, normalising twice is normalising
    once, whether the first run returns or throws. *)
Theorem replaceNullsWithUndefined_idempotent :
  forall x : value,
    finite_numbers x = true ->
    (normalized <- replaceNullsWithUndefined x ;;
     replaceNullsWithUndefined normalized)
    = replaceNullsWithUndefined x.
Proof.
  intros x Hfinite. rewrite (replaceNullsWithUndefined_visit x).
  destruct (visit x) as [[j | ] | e] eqn:Hx; simpl; try reflexivity.
  apply visit_written in Hx. destruct Hx as [Hkept Hj].
  destruct (round_trip_settled Hfinite Hkept Hj) as [Hkept' (j' & Hj' & Hfixed)].
  rewrite replaceNullsWithUndefined_visit, (visit_kept Hkept').
  fold replacer. rewrite Hj'. simpl. now rewrite Hfixed.
Qed.

(** *** The YAML view *)

Lemma writeNode_defined (replacer : string -> value -> value) (v : value) :
  writeNode replacer v = None <-> v = VUndefined.
Proof.
  destruct v; simpl; split; intros H; try discriminate; reflexivity.
Qed.

(** The replacers agree everywhere: so do the documents. *)
Lemma writeNode_ext (r1 r2 : string -> value -> value) :
  (forall key v, r1 key v = r2 key v) ->
  forall v, writeNode r1 v = writeNode r2 v.
Proof.
  intros Hagree. induction v as [ | | b | n | s | elements IH | props IH]
    using value_induction; simpl; try reflexivity.
  - do 2 f_equal. apply with_indices_map_ext. intros e i He.
    rewrite Forall_forall in IH. now rewrite (IH e He), Hagree.
  - do 4 f_equal. apply map_ext_in. intros p Hp.
    rewrite Forall_forall in IH. now rewrite (IH p Hp), Hagree.
Qed.

Lemma In_mapping_pairs (replacer : string -> value -> value)
    (props : list (string * value)) (key : string) (node : yaml) :
  In (key, node)
     (flat_map (fun m => match snd m with
                         | Some node => [(fst m, node)]
                         | None => []
                         end)
        (EnumerableOwnProperties
           (map (fun p => (fst p,
                           if is_undefined (replacer (fst p) (snd p)) then None
                           else writeNode replacer (snd p))) props)))
  <-> exists u, In (key, u) props
                /\ is_undefined (replacer key u) = false
                /\ writeNode replacer u = Some node.
Proof.
  rewrite in_flat_map. split.
  - intros ([k o] & Hin & Hsel).
    apply EnumerableOwnProperties_In, in_map_iff in Hin.
    destruct Hin as ([k' u] & Heq & Hin). simpl in Heq.
    injection Heq as -> <-. simpl in Hsel.
    destruct (is_undefined (replacer k u)) eqn:Hkept; [contradiction | ].
    destruct (writeNode replacer u) as [n | ] eqn:Hnode; [ | contradiction].
    destruct Hsel as [Heq | []]. injection Heq as -> ->.
    exists u. auto.
  - intros (u & Hin & Hkept & Hnode).
    exists (key, Some node). split; [ | now left].
    apply EnumerableOwnProperties_In, in_map_iff.
    exists (key, u). simpl. now rewrite Hkept, Hnode.
Qed.

Lemma In_sequence_items (replacer : string -> value -> value)
    (elements : list value) (item : yaml) (start : N) :
  In item
     (with_indices start
        (map (fun element key =>
                match (if is_undefined (replacer key element) then None
                       else writeNode replacer element) with
                | Some node => node
                | None => YNull
                end) elements)) ->
  item = YNull
  \/ exists e, In e elements /\ writeNode replacer e = Some item.
Proof.
  intros Hin. apply In_with_indices in Hin.
  destruct Hin as (g & key & Hg & ->). apply in_map_iff in Hg.
  destruct Hg as (e & <- & He).
  destruct (is_undefined (replacer key e)); [now left | ].
  destruct (writeNode replacer e) as [n | ] eqn:Hnode; [ | now left].
  right. eauto.
Qed.

(** With the managed fields hidden, no mapping of the document has a
    [managedFields] key. *)
Lemma writeNode_omits_managedFields (v : value) :
  forall node,
    writeNode (managedFields_replacer false) v = Some node ->
    ~ In "managedFields" (yaml_keys node).
Proof.
  induction v as [ | | b | n | s | elements IH | props IH]
    using value_induction; simpl; intros node Hnode;
    try discriminate; injection Hnode as <-; simpl; auto.
  - rewrite in_flat_map. intros (item & Hitem & Hkey).
    apply In_sequence_items in Hitem.
    destruct Hitem as [-> | (e & He & Hnode)]; [contradiction | ].
    rewrite Forall_forall in IH. exact (IH e He item Hnode Hkey).
  - rewrite in_flat_map. intros ([k n] & Hpair & Hkey).
    apply In_mapping_pairs in Hpair.
    destruct Hpair as (u & Hu & Hkept & Hnode).
    rewrite Forall_forall in IH. specialize (IH (k, u) Hu n Hnode).
    simpl in Hkey. destruct Hkey as [-> | Hkey]; [ | contradiction].
    discriminate Hkept.
Qed.

(** With the managed fields shown, whatever is defined in the object is
    written at the same place in the document. *)
Lemma writeNode_keeps_fields (path : list step) (v w : value) :
  field_at path v w ->
  w <> VUndefined ->
  exists document node,
    writeNode (managedFields_replacer true) v = Some document
    /\ writeNode (managedFields_replacer true) w = Some node
    /\ node_at path document node.
Proof.
  induction 1 as [v | key props u path w Hin Hpath IH
                  | i elements u path w Hnth Hpath IH]; intros Hdefined.
  - destruct (writeNode (managedFields_replacer true) v) as [node | ] eqn:Hnode.
    + exists node, node. repeat split. constructor.
    + apply writeNode_defined in Hnode. contradiction.
  - destruct (IH Hdefined) as (du & node & Hdu & Hnode & Hat).
    simpl. eexists. exists node. split; [reflexivity | ]. split; [exact Hnode | ].
    apply node_member with (u := du); [ | exact Hat].
    apply In_mapping_pairs. exists u. repeat split; auto.
    simpl. destruct u; simpl in *; try reflexivity; discriminate.
  - destruct (IH Hdefined) as (du & node & Hdu & Hnode & Hat).
    simpl. eexists. exists node. split; [reflexivity | ]. split; [exact Hnode | ].
    apply node_element with (u := du); [ | exact Hat].
    rewrite nth_error_with_indices, nth_error_map, Hnth. simpl.
    rewrite Hdu. destruct u; simpl in *; try reflexivity; discriminate.
Qed.

Lemma writeNode_object (replacer : string -> value -> value)
    (props : list (string * value)) :
  writeNode replacer (VObject props)
  = Some (YMapping
            (flat_map (fun m : string * option yaml =>
                         match snd m with
                         | Some node => [(fst m, node)]
                         | None => []
                         end)
               (map (fun p => (fst p,
                               if is_undefined (replacer (fst p) (snd p)) then None
                               else writeNode replacer (snd p)))
                    (EnumerableOwnProperties props)))).
Proof.
  simpl. do 3 f_equal.
  exact (EnumerableOwnProperties_map
           (fun p : string * value =>
              if is_undefined (replacer (fst p) (snd p)) then None
              else writeNode replacer (snd p)) props).
Qed.

Lemma without_managedFields_undefined (v : value) :
  is_undefined (without_managedFields v) = is_undefined v.
Proof. now destruct v. Qed.

Lemma without_managedFields_props (props : list (string * value)) :
  flat_map (fun p => if fst p =? "managedFields" then []
                     else [(fst p, without_managedFields (snd p))]) props
  = map (fun p => (fst p, without_managedFields (snd p)))
        (filter (fun p => negb (fst p =? "managedFields")) props).
Proof.
  induction props as [ | p props IH]; simpl; [reflexivity | ].
  destruct (fst p =? "managedFields"); simpl; now rewrite IH.
Qed.

Lemma managedFields_replacer_filters (flag : bool) (key : string) (v : value) :
  managedFields_replacer flag key v = VUndefined
  \/ managedFields_replacer flag key v = v.
Proof.
  unfold managedFields_replacer. destruct (negb flag); [ | now right].
  destruct (key =? "managedFields"); auto.
Qed.

Lemma managedFields_replacer_top (flag : bool) (v : value) :
  managedFields_replacer flag "" v = v.
Proof.
  unfold managedFields_replacer. now destruct flag.
Qed.

Lemma managedFields_replacer_index (flag : bool) (i : N) (v : value) :
  managedFields_replacer flag (index_to_string i) v = v.
Proof.
  unfold managedFields_replacer. rewrite index_not_managedFields.
  now destruct flag.
Qed.

Lemma managedFields_replacer_shown (key : string) (v : value) :
  managedFields_replacer true key v = v.
Proof. reflexivity. Qed.

Lemma managedFields_replacer_hidden (key : string) (v : value) :
  managedFields_replacer false key v
  = if key =? "managedFields" then VUndefined else v.
Proof. reflexivity. Qed.

(** Hiding the managed fields writes the document of the value without
    its [managedFields] members. *)
Lemma writeNode_without_managedFields (v : value) :
  writeNode (managedFields_replacer false) v
  = writeNode (managedFields_replacer true) (without_managedFields v).
Proof.
  induction v as [ | | b | n | s | elements IH | props IH]
    using value_induction; try reflexivity.
  - simpl. do 2 f_equal. rewrite map_map.
    apply with_indices_map_ext. intros e i He.
    rewrite Forall_forall in IH.
    rewrite !managedFields_replacer_index, without_managedFields_undefined.
    now rewrite <- (IH e He).
  - rewrite writeNode_object. simpl without_managedFields.
    rewrite writeNode_object, without_managedFields_props.
    pose proof (EnumerableOwnProperties_map
                  (fun p : string * value => without_managedFields (snd p))
                  (filter (fun p => negb (fst p =? "managedFields")) props))
      as Hmap.
    simpl in Hmap. rewrite Hmap.
    rewrite (EnumerableOwnProperties_filter
               (fun key => negb (key =? "managedFields")) props).
    assert (Hmembers : forall p, In p (EnumerableOwnProperties props) ->
                                 writeNode (managedFields_replacer false) (snd p)
                                 = writeNode (managedFields_replacer true)
                                             (without_managedFields (snd p))).
    { rewrite Forall_forall in IH. intros p Hp. apply IH.
      now apply (proj1 (EnumerableOwnProperties_In _ _)). }
    do 2 f_equal.
    induction (EnumerableOwnProperties props) as [ | p l IHl]; simpl;
      [reflexivity | ].
    rewrite managedFields_replacer_hidden.
    destruct (fst p =? "managedFields") eqn:Hkey; simpl.
    + apply IHl. intros q Hq. apply Hmembers. now right.
    + rewrite managedFields_replacer_shown, without_managedFields_undefined.
      rewrite (Hmembers p (or_introl eq_refl)).
      rewrite IHl; [reflexivity | ]. intros q Hq. apply Hmembers. now right.
Qed.

(** C7: with the flag off, the document that is dumped has no
    [managedFields] key at any depth, and the YAML text is that of the
    value without its [managedFields] members; with the flag on the
    replacer filters nothing, and every defined field of the object, a
    managed field or any other, is in the document at the same place. *)
Theorem managedFields_omitted_or_kept :
  forall (write_document : yaml -> string) (v : value),
    ~ In "managedFields"
         (document_keys (dump_document v (managedFields_replacer false)))
    /\ toYaml write_document v false
       = toYaml write_document (without_managedFields v) true
    /\ dump_document v (managedFields_replacer true)
       = dump_document v (fun _ value => value)
    /\ toYaml write_document v true
       = jsYaml_dump write_document v (fun _ value => value)
    /\ forall (path : list step) (w : value),
        field_at path v w ->
        w <> VUndefined ->
        exists document node,
          dump_document v (managedFields_replacer true) = Some document
          /\ writeNode (managedFields_replacer true) w = Some node
          /\ node_at path document node.
Proof.
  intros write_document v.
  assert (Hsame : dump_document v (managedFields_replacer true)
                  = dump_document v (fun _ value => value)).
  { unfold dump_document. rewrite managedFields_replacer_top.
    destruct (is_undefined v); [reflexivity | ].
    now apply writeNode_ext. }
  split; [ | split; [ | split; [exact Hsame | split]]].
  - unfold dump_document, document_keys.
    rewrite managedFields_replacer_top.
    destruct (is_undefined v); [auto | ].
    destruct (writeNode (managedFields_replacer false) v) as [node | ] eqn:Hnode;
      [ | auto].
    now apply writeNode_omits_managedFields with (v := v).
  - unfold toYaml, jsYaml_dump, dump_document.
    rewrite !managedFields_replacer_top, without_managedFields_undefined.
    now rewrite writeNode_without_managedFields.
  - unfold toYaml, jsYaml_dump. now rewrite Hsame.
  - intros path w Hpath Hdefined.
    destruct (writeNode_keeps_fields Hpath Hdefined)
      as (document & node & Hdocument & Hnode & Hat).
    exists document, node. split; [ | now split].
    unfold dump_document. rewrite managedFields_replacer_top.
    destruct v; simpl in *; try discriminate; exact Hdocument.
Qed.

Lemma managedFields_replacer_written (flag : bool) (key : string) (v : value) :
  is_undefined (managedFields_replacer flag key v) = false ->
  is_undefined v = false.
Proof.
  unfold managedFields_replacer.
  destruct (negb flag); [ | auto].
  destruct (key =? "managedFields"); [discriminate | auto].
Qed.

Lemma mapping_keys (replacer : string -> value -> value)
    (l : list (string * value)) :
  (forall key v, is_undefined (replacer key v) = false -> is_undefined v = false) ->
  map fst
      (flat_map (fun m : string * option yaml =>
                   match snd m with
                   | Some node => [(fst m, node)]
                   | None => []
                   end)
         (map (fun p => (fst p,
                         if is_undefined (replacer (fst p) (snd p)) then None
                         else writeNode replacer (snd p))) l))
  = map fst (filter (written replacer) l).
Proof.
  intros Hkept. induction l as [ | [k u] l IH]; simpl; [reflexivity | ].
  unfold written at 1. simpl.
  destruct (is_undefined (replacer k u)) eqn:Hu; simpl; [exact IH | ].
  destruct (writeNode replacer u) as [node | ] eqn:Hnode; simpl.
  - now rewrite IH.
  - apply writeNode_defined in Hnode. subst u.
    apply Hkept in Hu. discriminate.
Qed.

(** C8, as the code has it: the dump is a function of the object and the
    flag; the keys of every mapping are those of the written members of
    the object in the order of [Object.keys], array indices first in
    ascending order and then the other keys as they were created, which is
    the order of creation when no key is an array index. *)
Theorem mapping_keys_in_enumeration_order :
  forall (write_document : yaml -> string)
         (props : list (string * value)) (flag : bool),
    (forall (v' : value) (flag' : bool),
        VObject props = v' -> flag = flag' ->
        toYaml write_document (VObject props) flag
        = toYaml write_document v' flag')
    /\ exists pairs,
        writeNode (managedFields_replacer flag) (VObject props)
        = Some (YMapping pairs)
        /\ dump_document (VObject props) (managedFields_replacer flag)
           = Some (YMapping pairs)
        /\ map fst pairs
           = map fst (filter (written (managedFields_replacer flag))
                             (EnumerableOwnProperties props))
        /\ ((forall p, In p props -> array_index (fst p) = None) ->
            map fst pairs
            = map fst (filter (written (managedFields_replacer flag)) props)).
Proof.
  intros write_document props flag. split.
  - intros v' flag' <- <-. reflexivity.
  - unfold dump_document.
    rewrite managedFields_replacer_top, writeNode_object.
    eexists. split; [reflexivity | ]. split; [reflexivity | ].
    + rewrite mapping_keys by apply managedFields_replacer_written.
      split; [reflexivity | ].
      intros Hnamed. now rewrite EnumerableOwnProperties_named.
Qed.

(** *** What the YAML view shows of the object *)

Lemma writeNode_some (replacer : string -> value -> value) (v : value) :
  is_undefined v = false -> exists node, writeNode replacer v = Some node.
Proof.
  destruct v; simpl; intros H; try discriminate; eexists; reflexivity.
Qed.

(** With the managed fields hidden, whatever is defined in the object and
    is not under a [managedFields] member is written at the same place. *)
Lemma writeNode_keeps_other_fields (path : list step) (v w : value) :
  field_at path v w ->
  w <> VUndefined ->
  avoids_managedFields path = true ->
  exists document node,
    writeNode (managedFields_replacer false) v = Some document
    /\ writeNode (managedFields_replacer false) w = Some node
    /\ node_at path document node.
Proof.
  induction 1 as [v | key props u path w Hin Hpath IH
                  | i elements u path w Hnth Hpath IH]; intros Hdefined Havoids.
  - destruct (writeNode (managedFields_replacer false) v) as [node | ] eqn:Hnode.
    + exists node, node. repeat split. constructor.
    + apply writeNode_defined in Hnode. contradiction.
  - simpl in Havoids. apply andb_true_iff in Havoids.
    destruct Havoids as [Hkey Havoids]. apply negb_true_iff in Hkey.
    destruct (IH Hdefined Havoids) as (du & node & Hdu & Hnode & Hat).
    simpl. eexists. exists node. split; [reflexivity | ]. split; [exact Hnode | ].
    apply node_member with (u := du); [ | exact Hat].
    apply In_mapping_pairs. exists u. repeat split; auto.
    rewrite managedFields_replacer_hidden, Hkey.
    destruct u; simpl in *; try reflexivity; discriminate.
  - simpl in Havoids.
    destruct (IH Hdefined Havoids) as (du & node & Hdu & Hnode & Hat).
    simpl. eexists. exists node. split; [reflexivity | ]. split; [exact Hnode | ].
    apply node_element with (u := du); [ | exact Hat].
    rewrite nth_error_with_indices, nth_error_map, Hnth. simpl.
    rewrite managedFields_replacer_index, Hdu.
    destruct u; simpl in *; try reflexivity; discriminate.
Qed.

(** X9: hiding the managed fields hides nothing else. Every field of the
    object that is defined and is reached without going through a member
    named [managedFields] is in the document, at the same place. *)
Theorem other_fields_kept_when_hidden :
  forall (v : value) (path : list step) (w : value),
    field_at path v w ->
    w <> VUndefined ->
    avoids_managedFields path = true ->
    exists document node,
      dump_document v (managedFields_replacer false) = Some document
      /\ writeNode (managedFields_replacer false) w = Some node
      /\ node_at path document node.
Proof.
  intros v path w Hpath Hdefined Havoids.
  destruct (writeNode_keeps_other_fields Hpath Hdefined Havoids)
    as (document & node & Hdocument & Hnode & Hat).
  exists document, node. split; [ | now split].
  unfold dump_document. rewrite managedFields_replacer_top.
  destruct v; simpl in *; try discriminate; exact Hdocument.
Qed.

(** Whatever is in the document written for a value is at the same place in
    the value. *)
Lemma writeNode_from_fields (flag : bool) (path : list step) :
  forall (v : value) (document node : yaml),
    writeNode (managedFields_replacer flag) v = Some document ->
    node_at path document node ->
    exists w,
      field_at path v w
      /\ (writeNode (managedFields_replacer flag) w = Some node
          \/ (w = VUndefined /\ node = YNull))
      /\ (flag = false -> avoids_managedFields path = true).
Proof.
  induction path as [ | st rest IH]; intros v document node Hdocument Hat.
  - inversion Hat; subst. exists v. split; [constructor | ].
    split; [now left | reflexivity].
  - inversion Hat as [ | key pairs u path' w0 Hin Hrest Hpath Hshape
                       | i items u path' w0 Hnth Hrest Hpath Hshape]; subst.
    + destruct v as [ | | b | n | s | elements | props]; simpl in Hdocument;
        try discriminate; injection Hdocument as Hpairs; try discriminate.
      subst pairs. apply In_mapping_pairs in Hin.
      destruct Hin as (e & He & Hkept & Hnode).
      destruct (IH e u node Hnode Hrest) as (w & Hw & Hwritten & Havoids).
      exists w. split; [now apply field_member with (u := e) | ].
      split; [exact Hwritten | ].
      intros ->. simpl. rewrite (Havoids eq_refl), andb_true_r.
      rewrite managedFields_replacer_hidden in Hkept.
      destruct (key =? "managedFields"); [discriminate Hkept | reflexivity].
    + destruct v as [ | | b | n | s | elements | props]; simpl in Hdocument;
        try discriminate; injection Hdocument as Hitems; try discriminate.
      subst items.
      rewrite nth_error_with_indices, nth_error_map in Hnth.
      destruct (nth_error elements i) as [e | ] eqn:He; [ | discriminate].
      simpl in Hnth. injection Hnth as Hu.
      rewrite managedFields_replacer_index in Hu.
      destruct (is_undefined e) eqn:Hundefined.
      * subst u. inversion Hrest; subst.
        exists e. split; [apply field_element with (u := e); [exact He | constructor] | ].
        split; [right; split; [now destruct e | reflexivity] | ].
        reflexivity.
      * destruct (writeNode_some (managedFields_replacer flag) e Hundefined)
          as (item & Hitem).
        rewrite Hitem in Hu. subst u.
        destruct (IH e item node Hitem Hrest) as (w & Hw & Hwritten & Havoids).
        exists w. split; [now apply field_element with (u := e) | ].
        split; [exact Hwritten | exact Havoids].
Qed.

(** X10: the document shows nothing that is not in the object. Every node
    of the document is at the place of a field of the object and is what is
    written for that field, an [undefined] element of an array being written
    as [null]; with the managed fields hidden, no node is under a member
    named [managedFields]. *)
Theorem document_nodes_from_fields :
  forall (flag : bool) (v : value) (document : yaml) (path : list step)
         (node : yaml),
    dump_document v (managedFields_replacer flag) = Some document ->
    node_at path document node ->
    exists w,
      field_at path v w
      /\ (writeNode (managedFields_replacer flag) w = Some node
          \/ (w = VUndefined /\ node = YNull))
      /\ (flag = false -> avoids_managedFields path = true).
Proof.
  intros flag v document path node Hdocument Hat.
  unfold dump_document in Hdocument.
  rewrite managedFields_replacer_top in Hdocument.
  destruct (is_undefined v); [discriminate | ].
  exact (@writeNode_from_fields flag path v document node Hdocument Hat).
Qed.

(** X17: the order of the keys at any depth. For every object that is
    found in the value, not under a [managedFields] member when these are
    hidden, the document has a mapping at the same place, whose keys are
    those of the written members of the object in the order of
    [Object.keys]. *)
Theorem mapping_keys_at_any_depth :
  forall (flag : bool) (v : value) (path : list step)
         (props : list (string * value)),
    field_at path v (VObject props) ->
    (flag = false -> avoids_managedFields path = true) ->
    exists document pairs,
      dump_document v (managedFields_replacer flag) = Some document
      /\ node_at path document (YMapping pairs)
      /\ map fst pairs
         = map fst (filter (written (managedFields_replacer flag))
                           (EnumerableOwnProperties props)).
Proof.
  intros flag v path props Hfield Havoids.
  assert (Hdefined : VObject props <> VUndefined) by discriminate.
  assert (Hnode : exists document node,
             writeNode (managedFields_replacer flag) v = Some document
             /\ writeNode (managedFields_replacer flag) (VObject props) = Some node
             /\ node_at path document node).
  { destruct flag.
    - exact (writeNode_keeps_fields Hfield Hdefined).
    - exact (writeNode_keeps_other_fields Hfield Hdefined (Havoids eq_refl)). }
  destruct Hnode as (document & node & Hdocument & Hnode & Hat).
  rewrite writeNode_object in Hnode. injection Hnode as <-.
  exists document. eexists. split; [ | split; [exact Hat | ]].
  - unfold dump_document. rewrite managedFields_replacer_top.
    destruct v; simpl in *; try discriminate; exact Hdocument.
  - apply mapping_keys. apply managedFields_replacer_written.
Qed.

(** A value without [managedFields] keys has nothing to leave out. *)
Lemma without_managedFields_same (v : value) :
  ~ In "managedFields" (value_keys v) -> without_managedFields v = v.
Proof.
  induction v as [ | | b | n | s | elements IH | props IH]
    using value_induction; simpl; intros Hkeys; try reflexivity.
  - f_equal. rewrite in_flat_map in Hkeys.
    induction IH as [ | e elements He _ IHl]; simpl; [reflexivity | ].
    rewrite He, IHl; [reflexivity | | ].
    + intros (e' & He' & Hin). apply Hkeys. exists e'. split; [now right | exact Hin].
    + intros Hin. apply Hkeys. exists e. split; [now left | exact Hin].
  - f_equal. rewrite in_flat_map in Hkeys.
    induction IH as [ | [k u] props Hu _ IHl]; simpl; [reflexivity | ].
    destruct (String.eqb_spec k "managedFields") as [-> | Hk].
    + destruct Hkeys. exists ("managedFields", u). split; now left.
    + simpl in Hu. rewrite Hu, IHl; [reflexivity | | ].
      * intros (p & Hp & Hin). apply Hkeys. exists p. split; [now right | exact Hin].
      * intros Hin. apply Hkeys. exists (k, u). split; [now left | now right].
Qed.

(** X2: for an object in which no member is named [managedFields], at any
    depth, the managed-fields switch changes nothing: the YAML text is the
    same with the fields hidden and shown. *)
Theorem same_yaml_without_managedFields :
  forall (write_document : yaml -> string) (v : value),
    ~ In "managedFields" (value_keys v) ->
    toYaml write_document v false = toYaml write_document v true.
Proof.
  intros write_document v Hkeys.
  unfold toYaml, jsYaml_dump, dump_document.
  rewrite !managedFields_replacer_top, writeNode_without_managedFields.
  now rewrite (without_managedFields_same v Hkeys).
Qed.

(** *** The state of the content *)

(** C9: switching the display mode keeps the managed-fields cell (in
    particular from raw to structured); while the display is structured the
    managed-fields switch is rendered off and its handler leaves the state
    as it is. *)
Theorem managedFields_ignored_not_cleared :
  forall (s : state) (visible checked : bool),
    managedFields (handle s (YamlChange checked)) = managedFields s
    /\ handle {| isYaml := true; managedFields := visible |} (YamlChange false)
       = {| isYaml := false; managedFields := visible |}
    /\ managedFields_checked {| isYaml := false; managedFields := visible |}
       = false
    /\ handle {| isYaml := false; managedFields := visible |}
              (ManagedFieldsChange checked)
       = {| isYaml := false; managedFields := visible |}.
Proof.
  intros s visible checked.
  repeat split; reflexivity.
Qed.

(** X16: the first time the YAML view is shown, the managed fields are
    hidden: whatever the switches were sent while the display was
    structured, the state they lead to from the initial one is the initial
    one. *)
Theorem first_yaml_view_hides_managedFields :
  forall events : list event,
    Forall (fun e => e <> YamlChange true) events ->
    handle_all initial_state events = initial_state
    /\ handle_all initial_state (events ++ [YamlChange true])
       = {| isYaml := true; managedFields := false |}.
Proof.
  intros events Hstructured.
  assert (Hsame : handle_all initial_state events = initial_state).
  { unfold handle_all. induction Hstructured as [ | e events He _ IH]; simpl;
      [reflexivity | ].
    destruct e as [[ | ] | checked]; [now destruct He | exact IH | exact IH]. }
  split; [exact Hsame | ].
  unfold handle_all in *. now rewrite fold_left_app, Hsame.
Qed.

(** *** Titles *)

Lemma metadata_name_absent (props : list (string * value)) :
  name_absent props ->
  exists name,
    metadata_name (VObject props) = Normal name /\ is_nullish name = true.
Proof.
  unfold name_absent, metadata_name, GetV.
  intros [Habsent | (metadata & Hmeta & Habsent)].
  - destruct (lookup "metadata" props) as [[ | | | | | | ] | ];
      simpl in *; try discriminate; eexists; split; reflexivity.
  - rewrite Hmeta. unfold bind, optional_GetV, GetV, is_nullish at 1.
    destruct (lookup "name" metadata) as [[ | | | | | | ] | ];
      simpl in *; try discriminate; eexists; split; reflexivity.
Qed.

(** C10: when the object has no [metadata.name], the drawer is titled
    "unknown name" and the default button reads "unknown object". *)
Theorem unknown_titles :
  forall (node : Type) (props : list (string * value)) (buttonVariant : string),
    name_absent props ->
    drawer_title (VObject props) = Normal (VString "unknown name")
    /\ KubernetesDrawer_button (VObject props) buttonVariant (@None node)
       = Normal (Typography node buttonVariant (VString "unknown object")).
Proof.
  intros node props buttonVariant Habsent.
  destruct (metadata_name_absent Habsent) as (name & Hname & Hnullish).
  unfold drawer_title, KubernetesDrawer_button, nullish_or.
  rewrite Hname. simpl. rewrite Hnullish. split; reflexivity.
Qed.

(** *** The cluster link *)

Variable formatClusterLink :
  FormatClusterLinkOptions num -> completion Error (option string).

Local Notation tryFormatClusterLink :=
  (tryFormatClusterLink formatClusterLink).

Lemma string_or_empty (a b : string) :
  string_or a b = "" <-> a = "" /\ b = "".
Proof.
  unfold string_or. destruct (String.eqb_spec a "") as [-> | Ha].
  - tauto.
  - split; [contradiction | tauto].
Qed.

Lemma error_name_not_empty (err : Error) : error_name err <> "".
Proof.
  unfold error_name. destruct (error_constructor err); discriminate.
Qed.

(** The text of an error, its message or else its string form, is never
    empty. *)
Lemma error_text_not_empty (err : Error) :
  string_or (error_message err) (Error_toString err) <> "".
Proof.
  rewrite string_or_empty. intros [Hmessage Hstring].
  unfold Error_toString in Hstring. rewrite Hmessage in Hstring.
  destruct (String.eqb_spec (error_name err) "") as [Hname | Hname].
  - exact (error_name_not_empty err Hname).
  - simpl in Hstring. exact (Hname Hstring).
Qed.

(** C1: in what the boundary returns, exactly one of the link and the error
    message is set, unless the formatter returned without a link, in which
    case neither is. *)
Theorem link_xor_error :
  forall (options : FormatClusterLinkOptions num) (r : FormatResult),
    tryFormatClusterLink options = Normal r ->
    (truthy (clusterLink r) = true /\ errorMessage r = "")
    \/ (clusterLink r = Some "" /\ errorMessage r <> "")
    \/ (truthy (clusterLink r) = false /\ errorMessage r = ""
        /\ nothing_formatted (formatClusterLink options)).
Proof.
  intros options r. unfold tryFormatClusterLink, try_catch, bind, nothing_formatted.
  destruct (formatClusterLink options) as [link | err]; intros H;
    injection H as <-; simpl.
  - destruct (truthy link) eqn:Hlink; [left; auto | right; right; eauto].
  - right. left. split; [reflexivity | apply error_text_not_empty].
Qed.

Lemma tryFormatClusterLink_never_throws_link
    (options : FormatClusterLinkOptions num) :
  exists r : FormatResult, tryFormatClusterLink options = Normal r.
Proof.
  unfold tryFormatClusterLink, try_catch, bind.
  destruct (formatClusterLink options); eexists; reflexivity.
Qed.

(** C2: the boundary always returns; an error thrown by the formatter
    comes back as an empty link with the text of the error. *)
Theorem tryFormatClusterLink_never_throws :
  forall options : FormatClusterLinkOptions num,
    exists r : FormatResult,
      tryFormatClusterLink options = Normal r
      /\ forall err,
          formatClusterLink options = Throw err ->
          clusterLink r = Some ""
          /\ errorMessage r
             = string_or (error_message err) (Error_toString err).
Proof.
  intros options. unfold tryFormatClusterLink, try_catch, bind.
  destruct (formatClusterLink options) as [link | err].
  - eexists. split; [reflexivity | discriminate].
  - eexists. split; [reflexivity | ].
    intros err' H. injection H as <-. split; reflexivity.
Qed.

(** X1: when the formatter returns a link, that link comes back with no
    error message. *)
Theorem format_success_returned :
  forall (options : FormatClusterLinkOptions num) (link : string),
    formatClusterLink options = Normal (Some link) ->
    link <> "" ->
    exists r : FormatResult,
      tryFormatClusterLink options = Normal r
      /\ clusterLink r = Some link
      /\ truthy (clusterLink r) = true
      /\ errorMessage r = "".
Proof.
  intros options link Hlink Hfull.
  unfold tryFormatClusterLink, try_catch, bind. rewrite Hlink.
  eexists. split; [reflexivity | ]. simpl. repeat split.
  now apply negb_true_iff, String.eqb_neq.
Qed.

Lemma cluster_named_in_panel (cluster : ClusterAttributes num) (message : string) :
  contains (cluster_name cluster) (panel_message (ErrorPanel cluster message)).
Proof.
  unfold contains. cbv [ErrorPanel panel_message].
  eexists. eexists. reflexivity.
Qed.

(** C3, as the code has it: when the formatter throws, the boundary returns
    an empty link and the text of the error, which is not empty and is the
    same for every cluster that passes the same options; the name of the
    cluster is in the message of the warning panel that is then rendered. *)
Theorem format_failure_reported :
  forall (cluster : ClusterAttributes num) (object : value) (kind : string)
         (err : Error),
    formatClusterLink (link_options cluster object kind) = Throw err ->
    exists r : FormatResult,
      tryFormatClusterLink (link_options cluster object kind) = Normal r
      /\ clusterLink r = Some ""
      /\ errorMessage r = string_or (error_message err) (Error_toString err)
      /\ errorMessage r <> ""
      /\ (forall other : ClusterAttributes num,
            link_options other object kind = link_options cluster object kind ->
            tryFormatClusterLink (link_options other object kind) = Normal r)
      /\ exists panel,
          error_panel cluster r = Some panel
          /\ contains (cluster_name cluster) (panel_message panel).
Proof.
  intros cluster object kind err Hthrow.
  eexists. split.
  - unfold tryFormatClusterLink, try_catch, bind. rewrite Hthrow. reflexivity.
  - simpl. split; [reflexivity | ]. split; [reflexivity | ].
    split; [apply error_text_not_empty | ]. split.
    + intros other Hsame. rewrite Hsame.
      unfold tryFormatClusterLink, try_catch, bind. rewrite Hthrow. reflexivity.
    + unfold error_panel. simpl.
      destruct (String.eqb_spec
                  (string_or (error_message err) (Error_toString err)) "")
        as [Hempty | _]; [now destruct (error_text_not_empty err) | ].
      eexists. split; [reflexivity | apply cluster_named_in_panel].
Qed.

(** *** What the content renders *)

Variable write_document : yaml -> string.
Variable table : Type.
Variable renderObject : value -> table.

(** X3: when the content renders, the switches show the state, the YAML
    view shows the dump of the object under the managed-fields flag, and
    the structured view shows the table of the normalised object. *)
Theorem content_follows_mode :
  forall (cluster : ClusterAttributes num) (object : value) (kind : string)
         (s : state) (v : view num table),
    KubernetesDrawerContent num_to_string write_document formatClusterLink
      renderObject cluster object kind s = Normal v ->
    view_yaml_checked v = isYaml s
    /\ view_managedFields_checked v = (isYaml s && managedFields s)
    /\ (isYaml s = true ->
        view_content v
        = CodeSnippet table (toYaml write_document object (managedFields s)))
    /\ (isYaml s = false ->
        exists normalized,
          replaceNullsWithUndefined object = Normal normalized
          /\ view_content v = StructuredMetadataTable (renderObject normalized)).
Proof.
  intros cluster object kind s v. unfold KubernetesDrawerContent.
  destruct (tryFormatClusterLink_never_throws_link (link_options cluster object kind))
    as (r & ->). simpl.
  destruct (drawer_title object) as [title | e]; simpl; [ | discriminate].
  unfold yaml_checked, managedFields_checked.
  destruct (isYaml s) eqn:Hmode; simpl.
  - intros H. injection H as <-. simpl.
    split; [reflexivity | ]. split; [reflexivity | ].
    split; [reflexivity | discriminate].
  - destruct (replaceNullsWithUndefined object) as [normalized | e] eqn:Hnormalized;
      simpl; [ | discriminate].
    intros H. injection H as <-. simpl.
    split; [reflexivity | ]. split; [reflexivity | ].
    split; [discriminate | ]. intros _. now exists normalized.
Qed.

(** *** The warning panel and the dashboard button *)

(** The text of an error is its message, or the name of its constructor
    when the message is empty. *)
Lemma error_text (err : Error) :
  string_or (error_message err) (Error_toString err)
  = if error_message err =? "" then error_name err else error_message err.
Proof.
  unfold string_or, Error_toString.
  destruct (error_message err =? ""); [ | reflexivity].
  destruct (String.eqb_spec (error_name err) "") as [Hname | _];
    [now destruct (error_name_not_empty err) | reflexivity].
Qed.

(** X11: an error thrown by the formatter is reported by its message, and an
    error whose message is empty by the name of its constructor. *)
Theorem format_error_text :
  forall (options : FormatClusterLinkOptions num) (err : Error),
    formatClusterLink options = Throw err ->
    tryFormatClusterLink options
    = Normal {| clusterLink := Some "";
                errorMessage :=
                  if error_message err =? ""
                  then native_error_name (error_constructor err)
                  else error_message err |}.
Proof.
  intros options err Hthrow.
  unfold tryFormatClusterLink, try_catch, bind. rewrite Hthrow.
  now rewrite error_text.
Qed.

(** X18: the panel names the application of the cluster, and a cluster
    whose [dashboardApp] is not set, or is the empty string, is reported
    with the application "standard", like a cluster that names it; the
    message does not depend on the error, whose text is shown below the
    message unless it is empty. *)
Theorem ErrorPanel_standard_application :
  forall (cluster : ClusterAttributes num) (app message : string),
    ErrorPanel (with_dashboardApp cluster None) message
    = ErrorPanel (with_dashboardApp cluster (Some "standard")) message
    /\ ErrorPanel (with_dashboardApp cluster (Some "")) message
       = ErrorPanel (with_dashboardApp cluster (Some "standard")) message
    /\ (app <> "" ->
        panel_message (ErrorPanel (with_dashboardApp cluster (Some app)) message)
        = ("Could not format the link to the dashboard of your cluster named '"
           ++ cluster_name cluster
           ++ "'. Its dashboardApp property has been set to '" ++ app ++ ".'")%string)
    /\ panel_message (ErrorPanel cluster message)
       = panel_message (ErrorPanel cluster "")
    /\ (panel_children (ErrorPanel cluster message) = None <-> message = "").
Proof.
  intros cluster app message.
  split; [reflexivity | ]. split; [reflexivity | ]. split; [ | split].
  - intros Happ. cbv [ErrorPanel panel_message with_dashboardApp
                        cluster_name cluster_dashboardApp string_or].
    destruct (String.eqb_spec app "") as [Hempty | _];
      [contradiction | reflexivity].
  - reflexivity.
  - cbv [ErrorPanel panel_children].
    destruct (String.eqb_spec message "") as [-> | Hfull].
    + split; reflexivity.
    + split; [discriminate | contradiction].
Qed.

Local Notation KubernetesDrawerContent :=
  (KubernetesDrawerContent num_to_string write_document formatClusterLink
                           renderObject).

(** X12: what the content renders of the cluster link. When the formatter
    threw, the warning panel is rendered with the text of the error and the
    dashboard button is not; when it returned, there is no panel, and the
    button is rendered exactly for a link that is not empty. The panel and
    the button are never rendered together. *)
Theorem panel_or_dashboard_link :
  forall (cluster : ClusterAttributes num) (object : value) (kind : string)
         (s : state) (v : view num table),
    KubernetesDrawerContent cluster object kind s = Normal v ->
    (forall err,
        formatClusterLink (link_options cluster object kind) = Throw err ->
        view_dashboard_link v = None
        /\ view_error v
           = Some (ErrorPanel cluster
                     (string_or (error_message err) (Error_toString err)))
        /\ exists panel,
            view_error v = Some panel
            /\ panel_children panel
               = Some ("Errors: "
                       ++ string_or (error_message err) (Error_toString err))%string)
    /\ (forall link,
          formatClusterLink (link_options cluster object kind) = Normal link ->
          view_error v = None
          /\ view_dashboard_link v = if truthy link then link else None)
    /\ (view_error v = None \/ view_dashboard_link v = None).
Proof.
  intros cluster object kind s v. unfold KubernetesDrawerContent.
  unfold tryFormatClusterLink, try_catch, bind at 2.
  destruct (formatClusterLink (link_options cluster object kind))
    as [link | err]; simpl.
  - destruct (drawer_title object) as [title | e]; simpl; [ | discriminate].
    destruct (if isYaml s then _ else _) as [shown | e]; simpl; [ | discriminate].
    intros H. injection H as <-. simpl.
    split; [discriminate | ]. split; [ | now left].
    intros link' H. injection H as <-. split; reflexivity.
  - destruct (drawer_title object) as [title | e]; simpl; [ | discriminate].
    destruct (if isYaml s then _ else _) as [shown | e]; simpl; [ | discriminate].
    intros H. injection H as <-. unfold error_panel. simpl.
    destruct (String.eqb_spec
                (string_or (error_message err) (Error_toString err)) "")
      as [Hempty | Hfull]; [now destruct (error_text_not_empty err) | ].
    split; [ | split; [discriminate | now right]].
    intros err' H. injection H as <-.
    split; [reflexivity | ]. split; [reflexivity | ].
    eexists. split; [reflexivity | ]. simpl.
    destruct (String.eqb_spec
                (string_or (error_message err) (Error_toString err)) "");
      [contradiction | reflexivity].
Qed.

(** *** When the content renders *)

Lemma drawer_title_object (props : list (string * value)) :
  exists title, drawer_title (VObject props) = Normal title.
Proof.
  unfold drawer_title, metadata_name, GetV, bind, optional_GetV, GetV.
  destruct (lookup "metadata" props) as [[ | | b | n | s | elements | members] | ];
    simpl; eexists; reflexivity.
Qed.

(** An object has a normal form unless an object in it hides [toString]. *)
Lemma object_normal_form (props : list (string * value)) :
  (hides_toString (VObject props)
   /\ replaceNullsWithUndefined (VObject props) = Throw TypeError)
  \/ (~ hides_toString (VObject props)
      /\ exists y, replaceNullsWithUndefined (VObject props) = Normal y).
Proof.
  destruct (visit (VObject props)) as [[j | ] | e] eqn:Hx.
  - right. split.
    + intros (path & props' & Hfield & Hown).
      rewrite (visit_hidden_toString Hfield Hown) in Hx. discriminate Hx.
    + rewrite (visit_normal_form _ Hx). eauto.
  - apply visit_nothing in Hx. destruct Hx as (s & Hs & Hremovable).
    simpl in Hs. destruct (has_own "toString" props); [discriminate | ].
    injection Hs as <-. discriminate Hremovable.
  - left. split; [exact (visit_throws_hidden _ Hx) | ].
    rewrite replaceNullsWithUndefined_visit, Hx. simpl.
    f_equal. exact (visit_throws _ Hx).
Qed.

(** X13: for an object, the YAML view always renders; the structured view
    renders unless an object in it hides [toString], in which case rendering
    throws the [TypeError] of the normaliser. *)
Theorem content_renders :
  forall (cluster : ClusterAttributes num) (props : list (string * value))
         (kind : string) (s : state),
    (isYaml s = true ->
     exists v, KubernetesDrawerContent cluster (VObject props) kind s = Normal v)
    /\ (isYaml s = false ->
        (hides_toString (VObject props)
         /\ KubernetesDrawerContent cluster (VObject props) kind s
            = Throw (inr TypeError))
        \/ (~ hides_toString (VObject props)
            /\ exists v,
                KubernetesDrawerContent cluster (VObject props) kind s
                = Normal v)).
Proof.
  intros cluster props kind s. unfold KubernetesDrawerContent.
  destruct (tryFormatClusterLink_never_throws_link
              (link_options cluster (VObject props) kind)) as (r & ->).
  destruct (drawer_title_object props) as (title & ->). simpl.
  split; intros ->.
  - eexists. reflexivity.
  - destruct (object_normal_form props) as [[Hhides ->] | [Hplain (y & ->)]]; simpl.
    + left. split; [exact Hhides | reflexivity].
    + right. split; [exact Hplain | eexists; reflexivity].
Qed.

(** *** The name of the object *)

(** X14: an object whose [metadata] has a [name] that is neither [undefined]
    nor [null] is titled by that name, in the drawer and on its default
    button; an empty name is shown as it is. A button that is given children
    shows them and does not read the object. *)
Theorem named_titles :
  forall (node : Type) (props metadata : list (string * value)) (name : value)
         (buttonVariant : string),
    lookup "metadata" props = Some (VObject metadata) ->
    lookup "name" metadata = Some name ->
    is_nullish name = false ->
    drawer_title (VObject props) = Normal name
    /\ KubernetesDrawer_button (VObject props) buttonVariant (@None node)
       = Normal (Typography node buttonVariant name)
    /\ forall (object : value) (children : node),
        KubernetesDrawer_button object buttonVariant (Some children)
        = Normal (@Children num node children).
Proof.
  intros node props metadata name buttonVariant Hmetadata Hname Hdefined.
  unfold drawer_title, KubernetesDrawer_button, metadata_name, GetV, nullish_or.
  rewrite Hmetadata. unfold bind, optional_GetV, GetV, is_nullish at 1 3.
  rewrite Hname, Hdefined. repeat split.
Qed.

(** *** Opening and closing the drawer *)

Lemma KubernetesDrawer_open_last (expanded : option bool)
    (events : list (drawer_handler * Event)) (handler : drawer_handler)
    (e : Event) :
  KubernetesDrawer_open expanded (events ++ [(handler, e)])
  = snd (KubernetesDrawer_handle handler e (KubernetesDrawer_open expanded events)).
Proof.
  unfold KubernetesDrawer_open. now rewrite fold_left_app.
Qed.

(** X15: the drawer is open after a click on its button and closed after
    its [onClose] or a click on the dismiss button, whatever it was before:
    a click on the button of an open drawer leaves it open. Focusing the
    button and clicking inside the drawer change nothing, so that the state
    is that of the events that set it; with no event, or with such events
    only, it is [expanded], or closed by default. Every handler stops the
    propagation of its event. *)
Theorem drawer_open_after_events :
  forall (expanded : option bool) (events : list (drawer_handler * Event))
         (e : Event) (initially : bool),
    KubernetesDrawer_open expanded (events ++ [(ButtonClick, e)]) = true
    /\ KubernetesDrawer_open expanded (events ++ [(DrawerClose, e)]) = false
    /\ KubernetesDrawer_open expanded (events ++ [(DismissClick, e)]) = false
    /\ KubernetesDrawer_open expanded
         (filter (fun he => sets_open (fst he)) events)
       = KubernetesDrawer_open expanded events
    /\ KubernetesDrawer_open (Some initially) [] = initially
    /\ KubernetesDrawer_open None [] = false
    /\ ((forall he, In he events -> sets_open (fst he) = false) ->
        KubernetesDrawer_open (Some initially) events = initially)
    /\ forall handler isOpen,
        propagation_stopped (fst (KubernetesDrawer_handle handler e isOpen))
        = true.
Proof.
  intros expanded events e initially.
  rewrite !KubernetesDrawer_open_last.
  split; [reflexivity | ]. split; [reflexivity | ]. split; [reflexivity | ].
  split; [ | split; [reflexivity | split; [reflexivity | split]]];
    [ | | intros []; reflexivity].
  2: { unfold KubernetesDrawer_open. simpl. generalize initially.
       induction events as [ | [handler e'] events IH]; intros isOpen Hquiet;
         simpl; [reflexivity | ].
       assert (Hhandler : sets_open handler = false)
         by exact (Hquiet (handler, e') (or_introl eq_refl)).
       assert (Hrest : forall he, In he events -> sets_open (fst he) = false)
         by (intros he Hhe; apply Hquiet; now right).
       destruct handler; try discriminate Hhandler; simpl; now apply IH. }
  unfold KubernetesDrawer_open. generalize (KubernetesDrawer_initial expanded).
  induction events as [ | [handler e'] events IH]; intros isOpen; simpl;
    [reflexivity | ].
  destruct handler; simpl; apply IH.
Qed.

End Facts.

(** ** Worked instances *)

(** *** The cluster link *)

Lemma link_xor_error_witness :
  exists r,
    tryFormatClusterLink unsupported_formatter (link_options production pod "Pod")
    = Normal r
    /\ clusterLink r = Some "" /\ errorMessage r <> "".
Proof.
  eexists. split; [reflexivity | ].
  destruct (link_xor_error unsupported_formatter
              (link_options production pod "Pod") eq_refl)
    as [[Hlink _] | [H | (_ & Hmessage & _)]].
  - discriminate Hlink.
  - exact H.
  - discriminate Hmessage.
Defined.

Lemma not_contains_longer (s text : string) :
  String.length text < String.length s -> ~ contains s text.
Proof.
  intros Hlen (before & after & Heq).
  apply (f_equal String.length) in Heq.
  rewrite !length_append in Heq. lia.
Qed.

(** C3 fails as stated: whatever the formatter, as soon as it can fail at
    all, the error message it leads to cannot name every cluster, because
    the name of the cluster is not among the options. *)
Lemma error_message_does_not_name_cluster :
  ~ exists formatClusterLink :
      FormatClusterLinkOptions Z -> completion Error (option string),
      (exists cluster object kind err,
          formatClusterLink (link_options cluster object kind) = Throw err)
      /\ error_names_cluster formatClusterLink.
Proof.
  intros (f & (cluster & object & kind & err & Hthrow) & Hclaim).
  destruct (Hclaim cluster object kind err Hthrow) as (r & Hr & _ & _ & _).
  set (other := {| cluster_name := (errorMessage r ++ "x")%string;
                   cluster_dashboardUrl := cluster_dashboardUrl cluster;
                   cluster_dashboardApp := cluster_dashboardApp cluster;
                   cluster_dashboardParameters :=
                     cluster_dashboardParameters cluster |}).
  assert (Hsame : link_options other object kind = link_options cluster object kind)
    by reflexivity.
  assert (Hthrow' := Hthrow). rewrite <- Hsame in Hthrow'.
  destruct (Hclaim other object kind err Hthrow') as (r' & Hr' & _ & _ & Hin).
  rewrite Hsame, Hr in Hr'. injection Hr' as <-.
  revert Hin. apply not_contains_longer. simpl.
  rewrite length_append. simpl. lia.
Qed.

(** The formatter that knows no application, on the production cluster:
    the message names the application and the panel names the cluster. *)
Lemma format_failure_reported_witness :
  exists r,
    tryFormatClusterLink unsupported_formatter (link_options production pod "Pod")
    = Normal r
    /\ errorMessage r = "Could not find Kubernetes dashboard app named 'lens'"
    /\ ~ contains "production" (errorMessage r)
    /\ exists panel,
        error_panel production r = Some panel
        /\ contains "production" (panel_message panel).
Proof.
  destruct (format_failure_reported unsupported_formatter
              production pod "Pod" eq_refl)
    as (r & Hr & _ & Hmessage & _ & _ & Hpanel).
  exists r. split; [exact Hr | ]. split; [exact Hmessage | ].
  split; [ | exact Hpanel].
  rewrite Hmessage. intros (before & after & Heq). simpl in Heq.
  repeat (destruct before as [ | ? before]; simpl in Heq;
          [discriminate Heq | injection Heq as ? Heq; subst]).
  destruct before; discriminate Heq.
Defined.

Lemma format_success_returned_witness :
  exists r,
    tryFormatClusterLink dashboard_formatter (link_options production pod "Pod")
    = Normal r
    /\ clusterLink r = Some "https://dashboard.example"
    /\ errorMessage r = "".
Proof.
  destruct (@format_success_returned Z dashboard_formatter
              (link_options production pod "Pod") "https://dashboard.example"
              eq_refl)
    as (r & Hr & Hlink & _ & Hmessage); [discriminate | ].
  exists r. auto.
Defined.

(** *** The normaliser *)

(** C4: on [{a: [null]}] the normaliser returns its input. The [null]
    element, whose string form is "null", is still there after normalising,
    because [JSON.stringify] writes [null] for an element the replacer
    drops; so not every node with such a string form is removed, as it is
    when it is a member of an object, like [a] and [b] in the example of the
    specification. *)
Lemma null_element_kept :
  replaceNullsWithUndefined Z_to_string null_in_array = Normal null_in_array
  /\ ~ removable_nodes_absent null_in_array
  /\ replaceNullsWithUndefined Z_to_string example_object
     = Normal (VObject [("c", int 1)]).
Proof.
  assert (Hfield : field_at [Key "a"; Index 0] null_in_array VNull).
  { apply field_member with (u := VArray [VNull]); [now left | ].
    apply field_element with (u := VNull); [reflexivity | constructor]. }
  split; [reflexivity | ]. split; [ | reflexivity].
  intros Hclaim.
  apply (Hclaim null_in_array [Key "a"; Index 0] VNull "null" VNull);
    [reflexivity | exact Hfield | reflexivity | now left | exact Hfield].
Qed.

(** The example of the specification: [a] and [b] are gone. *)
Lemma removable_members_absent_witness :
  replaceNullsWithUndefined Z_to_string example_object
  = Normal (VObject [("c", int 1)])
  /\ (forall w', ~ field_at ([] ++ [Key "a"]) (VObject [("c", int 1)]) w')
  /\ (forall w', ~ field_at ([] ++ [Key "b"]) (VObject [("c", int 1)]) w').
Proof.
  split; [reflexivity | ]. split.
  - apply (@removable_members_absent Z Z_to_string example_object
             (VObject [("c", int 1)]) [] "a" VNull "null");
      [reflexivity | reflexivity | | reflexivity | now left].
    apply field_member with (u := VNull); [now left | constructor].
  - apply (@removable_members_absent Z Z_to_string example_object
             (VObject [("c", int 1)]) [] "b" (VString "undefined") "undefined");
      [reflexivity | reflexivity | | reflexivity | now right].
    apply field_member with (u := VString "undefined");
      [right; now left | constructor].
Defined.

(** C5 fails as stated: a number that is not finite is written as [null],
    which the next run removes. *)
Lemma NaN_not_idempotent :
  replaceNullsWithUndefined Z_to_string NaN_member
  = Normal (VObject [("a", VNull)])
  /\ replaceNullsWithUndefined Z_to_string (VObject [("a", VNull)])
     = Normal (VObject [])
  /\ (normalized <- replaceNullsWithUndefined Z_to_string NaN_member ;;
      replaceNullsWithUndefined Z_to_string normalized)
     <> replaceNullsWithUndefined Z_to_string NaN_member.
Proof.
  split; [reflexivity | ]. split; [reflexivity | discriminate].
Qed.

Lemma replaceNullsWithUndefined_idempotent_witness :
  finite_numbers null_in_array = true
  /\ (normalized <- replaceNullsWithUndefined Z_to_string null_in_array ;;
      replaceNullsWithUndefined Z_to_string normalized)
     = replaceNullsWithUndefined Z_to_string null_in_array.
Proof.
  split; [reflexivity | ].
  apply (replaceNullsWithUndefined_idempotent Z_to_string null_in_array).
  reflexivity.
Defined.

(** C6 fails as stated: when the input itself has the string form "null"
    or "undefined", the normaliser does not return an empty result, it
    throws. *)
Lemma removable_input_throws :
  replaceNullsWithUndefined Z_to_string VNull = Throw SyntaxError
  /\ (~ exists result, replaceNullsWithUndefined Z_to_string VNull = Normal result)
  /\ replaceNullsWithUndefined Z_to_string VUndefined = Throw SyntaxError
  /\ replaceNullsWithUndefined Z_to_string (VString "null") = Throw SyntaxError
  /\ replaceNullsWithUndefined Z_to_string (VArray [VString "undefined"])
     = Throw SyntaxError.
Proof.
  split; [reflexivity | ]. split; [intros (result & H); discriminate H | ].
  repeat split; reflexivity.
Qed.

Lemma removable_input_rejected_witness :
  replaceNullsWithUndefined Z_to_string (VArray [VString "null"])
  = Throw SyntaxError.
Proof.
  apply (@removable_input_rejected Z Z_to_string (VArray [VString "null"]) "null");
    [reflexivity | now left].
Defined.

(** A pod whose labels include one named [toString]. *)
Lemma toString_property_throws_witness :
  field_at [Key "metadata"; Key "labels"] labelled_pod
           (VObject [("app", VString "web"); ("toString", VString "x")])
  /\ replaceNullsWithUndefined Z_to_string labelled_pod = Throw TypeError.
Proof.
  assert (Hfield : field_at [Key "metadata"; Key "labels"] labelled_pod
                            (VObject [("app", VString "web");
                                      ("toString", VString "x")])).
  { eapply field_member; [now left | ].
    eapply field_member; [right; now left | constructor]. }
  split; [exact Hfield | ].
  exact (@toString_property_throws Z Z_to_string _ _ _ Hfield eq_refl).
Defined.

(** The member [b] has no normal form and is left out; the array index [1],
    created last, comes first. *)
Lemma replaceNullsWithUndefined_object_witness :
  replaceNullsWithUndefined Z_to_string (VObject index_key_last)
  = Normal (VObject [("1", VString "x"); ("c", int 1)])
  /\ distinct (map fst index_key_last) = true
  /\ VObject [("1", VString "x"); ("c", int 1)]
     = VObject (flat_map
                  (normalised_member (replaceNullsWithUndefined Z_to_string))
                  (EnumerableOwnProperties index_key_last)).
Proof.
  split; [reflexivity | ]. split; [reflexivity | ].
  apply (@replaceNullsWithUndefined_object Z Z_to_string index_key_last);
    reflexivity.
Defined.

(** [[null, "undefined", 1, ["null"], NaN]] becomes
    [[null, null, 1, null, null]]. *)
Lemma replaceNullsWithUndefined_array_witness :
  replaceNullsWithUndefined Z_to_string (VArray mixed_array)
  = Normal (VArray [VNull; VNull; int 1; VNull; VNull])
  /\ VArray [VNull; VNull; int 1; VNull; VNull]
     = VArray (map (normalised_element (replaceNullsWithUndefined Z_to_string))
                   mixed_array).
Proof.
  split; [reflexivity | ].
  apply (@replaceNullsWithUndefined_array Z Z_to_string mixed_array); reflexivity.
Defined.

(** The normal form of [{a: NaN}] has no number that is not finite. *)
Lemma replaceNullsWithUndefined_plain_witness :
  finite_numbers NaN_member = false
  /\ finite_numbers (VObject [("a", @VNull Z)]) = true
  /\ distinct_keys (VObject [("a", @VNull Z)]) = true
  /\ forall (path : list step) (w : value Z),
      field_at path (VObject [("a", VNull)]) w -> is_undefined w = false.
Proof.
  split; [reflexivity | ].
  apply (@replaceNullsWithUndefined_plain Z Z_to_string NaN_member). reflexivity.
Defined.

(** *** The YAML view *)

(** C8 fails as stated: a key that is an array index is written before the
    keys created before it. *)
Lemma numeric_key_written_first :
  dump_document (VObject numeric_key_last) (managedFields_replacer true)
  = Some (YMapping [("1", YNumber (Finite 2%Z)); ("b", YNumber (Finite 1%Z))])
  /\ ~ keys_in_creation_order numeric_key_last true.
Proof.
  split; [reflexivity | ].
  intros Hclaim. specialize (Hclaim _ eq_refl). discriminate Hclaim.
Qed.

(** The example of the specification for the YAML view: with the managed
    fields hidden, the document of the pod has its name and its status and
    no [managedFields]; with the managed fields shown it has them. *)
Lemma managed_pod_documents :
  dump_document managed_pod (managedFields_replacer false)
  = Some (YMapping [("metadata", YMapping [("name", YString "pod-a")]);
                    ("status", YString "Running")])
  /\ dump_document managed_pod (managedFields_replacer true)
     = Some (YMapping
               [("metadata",
                 YMapping [("name", YString "pod-a");
                           ("managedFields",
                            YSequence [YMapping [("manager", YString "kubectl")]])]);
                ("status", YString "Running")]).
Proof.
  split; reflexivity.
Qed.

(** The name of the pod is written whether the managed fields are hidden
    or not. *)
Lemma other_fields_kept_when_hidden_witness :
  exists document node,
    dump_document managed_pod (managedFields_replacer false) = Some document
    /\ writeNode (managedFields_replacer false) (VString "pod-a") = Some node
    /\ node_at [Key "metadata"; Key "name"] document node.
Proof.
  apply (@other_fields_kept_when_hidden Z managed_pod
           [Key "metadata"; Key "name"] (VString "pod-a"));
    [ | discriminate | reflexivity].
  eapply field_member; [now left | ].
  eapply field_member; [now left | constructor].
Defined.

(** The node [pod-a] of the document of the pod is its [metadata.name]. *)
Lemma document_nodes_from_fields_witness :
  exists w,
    field_at [Key "metadata"; Key "name"] managed_pod w
    /\ (writeNode (managedFields_replacer false) w = Some (YString "pod-a")
        \/ (w = VUndefined /\ YString "pod-a" = @YNull Z))
    /\ (false = false ->
        avoids_managedFields [Key "metadata"; Key "name"] = true).
Proof.
  apply (@document_nodes_from_fields Z false managed_pod
           (YMapping [("metadata", YMapping [("name", YString "pod-a")]);
                      ("status", YString "Running")])).
  - reflexivity.
  - eapply node_member; [now left | ].
    eapply node_member; [now left | constructor].
Defined.

(** The labels of a pod, created as [b] then [1], are written as [1] then
    [b]. *)
Lemma mapping_keys_at_any_depth_witness :
  exists document pairs,
    dump_document (VObject [("labels", VObject numeric_key_last)])
                  (managedFields_replacer false)
    = Some document
    /\ node_at [Key "labels"] document (YMapping pairs)
    /\ map fst pairs = ["1"; "b"].
Proof.
  apply (@mapping_keys_at_any_depth Z false
           (VObject [("labels", VObject numeric_key_last)])
           [Key "labels"] numeric_key_last).
  - eapply field_member; [now left | constructor].
  - reflexivity.
Defined.

(** The pod without managed fields reads the same under both settings. *)
Lemma same_yaml_without_managedFields_witness :
  ~ In "managedFields" (value_keys pod)
  /\ toYaml (fun _ => "pod") pod false = toYaml (fun _ => "pod") pod true.
Proof.
  assert (Hkeys : ~ In "managedFields" (value_keys pod)).
  { simpl. intros H.
    repeat (destruct H as [H | H]; [discriminate H | ]). exact H. }
  split; [exact Hkeys | ].
  exact (@same_yaml_without_managedFields Z (fun _ => "pod") pod Hkeys).
Defined.

(** *** The component *)

(** Switches sent while the display is structured leave the initial state. *)
Lemma first_yaml_view_hides_managedFields_witness :
  handle_all initial_state
    [ManagedFieldsChange true; YamlChange false; ManagedFieldsChange true]
  = initial_state
  /\ handle_all initial_state
       ([ManagedFieldsChange true; YamlChange false; ManagedFieldsChange true]
        ++ [YamlChange true])
     = {| isYaml := true; managedFields := false |}.
Proof.
  apply first_yaml_view_hides_managedFields.
  repeat constructor; discriminate.
Defined.

(** An error without a message is reported by the name of its constructor. *)
Lemma format_error_text_witness :
  tryFormatClusterLink silent_formatter (link_options production pod "Pod")
  = Normal {| clusterLink := Some ""; errorMessage := "TypeError" |}.
Proof.
  exact (@format_error_text Z silent_formatter
           (link_options production pod "Pod") _ eq_refl).
Defined.

(** With the formatter that knows no application, the content shows the
    panel with the error and no dashboard button. *)
Lemma panel_or_dashboard_link_witness :
  exists v,
    KubernetesDrawerContent Z_to_string (fun _ => "") unsupported_formatter
      (fun normalized => normalized) production pod "Pod" initial_state
    = Normal v
    /\ view_dashboard_link v = None
    /\ exists panel,
        view_error v = Some panel
        /\ panel_children panel
           = Some "Errors: Could not find Kubernetes dashboard app named 'lens'".
Proof.
  eexists. split; [reflexivity | ].
  destruct (@panel_or_dashboard_link Z Z_to_string unsupported_formatter
              (fun _ => "") (value Z) (fun normalized => normalized)
              production pod "Pod" initial_state _ eq_refl)
    as (Hthrown & _ & _).
  destruct (Hthrown _ eq_refl) as (Hlink & _ & Hpanel).
  split; [exact Hlink | exact Hpanel].
Defined.

(** A pod whose name is empty is titled by the empty string. *)
Lemma named_titles_witness :
  drawer_title (VObject empty_named_pod) = Normal (VString "")
  /\ KubernetesDrawer_button (VObject empty_named_pod) "subtitle2" (@None unit)
     = Normal (Typography unit "subtitle2" (VString ""))
  /\ forall (object : value Z) (children : unit),
      KubernetesDrawer_button object "subtitle2" (Some children)
      = Normal (@Children Z unit children).
Proof.
  apply (@named_titles Z unit empty_named_pod [("name", VString "")]
           (VString "") "subtitle2"); reflexivity.
Defined.

Lemma unknown_titles_witness :
  name_absent unnamed_pod
  /\ drawer_title (VObject unnamed_pod) = Normal (VString "unknown name")
  /\ KubernetesDrawer_button (VObject unnamed_pod) "subtitle2" (@None unit)
     = Normal (Typography unit "subtitle2" (VString "unknown object")).
Proof.
  assert (Habsent : name_absent unnamed_pod).
  { right. eexists. split; reflexivity. }
  split; [exact Habsent | ].
  exact (unknown_titles unit "subtitle2" Habsent).
Defined.

(** The example object in the structured view, with the managed-fields cell
    set: its switch is off and the table shows [{c: 1}]. *)
Lemma content_follows_mode_witness :
  exists v,
    KubernetesDrawerContent Z_to_string (fun _ => "") unsupported_formatter
      (fun normalized => normalized) production example_object "ConfigMap"
      {| isYaml := false; managedFields := true |} = Normal v
    /\ view_managedFields_checked v = false
    /\ view_content v = StructuredMetadataTable (VObject [("c", int 1)]).
Proof.
  eexists. split; [reflexivity | ].
  destruct (@content_follows_mode Z Z_to_string unsupported_formatter
              (fun _ => "") (value Z) (fun normalized => normalized)
              production example_object "ConfigMap"
              {| isYaml := false; managedFields := true |} _ eq_refl)
    as (_ & Hchecked & _ & Htable).
  split; [exact Hchecked | ].
  destruct (Htable eq_refl) as (normalized & Hnormalized & ->).
  injection Hnormalized as <-. reflexivity.
Defined.
